(** * NeuroPlanner: the task engine of [script.js], embedded in Rocq

    The development follows the layout of the source file:
    - [JS]: the fragment of the JavaScript runtime the engine relies on
      (primitive values, truthiness, [String.prototype.trim], [parseInt],
      [Number.prototype.toString], [Array.prototype.sort]);
    - [JSON]: [JSON.stringify] and [JSON.parse] on text;
    - the data structure [appState] and the LocalStorage functions;
    - task management ([addTask], [editTask], [deleteTask], [completeTask]);
    - the ordering algorithm ([orderTasks]);
    - the properties of the engine. *)

From Stdlib Require Import ZArith NArith Ascii String List Lia.
From Stdlib Require Import Sorting.Sorted.
From stdpp Require Import base tactics option list strings.

Local Open Scope Z_scope.
Local Open Scope list_scope.

(** Text is processed character by character; a character stands for one
    code unit of a JavaScript string (the code units below 256). *)
Abbreviation text := (list ascii).

(* ================================================================== *)
(** ** The JavaScript runtime fragment *)
(* ================================================================== *)

Module JS.

(** Numbers. Every number the engine computes comes out of [parseInt] or
    is a difference of such numbers: an integer or [NaN]. Integers are
    modelled exactly: the rounding of integers beyond 2^53 and the
    exponent notation of [toString] from 10^21 on are left out. *)
Inductive num := Int (z : Z) | NaN.

(** Primitive values, as the arguments of [addTask] receive them: the form
    hands over strings, other callers numbers, [null] or nothing. *)
Inductive value :=
| VUndefined
| VNull
| VBool (b : bool)
| VNum (n : num)
| VStr (s : string).

(** What a JavaScript function does besides returning. The third outcome
    marks the inputs on which this model of the runtime is silent. *)
Inductive error := TypeError | SyntaxError.
Inductive completion (A : Type) :=
| Normal (a : A)
| Throw (e : error)
| Unmodelled.
Arguments Normal {A} a.
Arguments Throw {A} e.
Arguments Unmodelled {A}.

Definition num_truthy (n : num) : bool :=
  match n with
  | Int z => negb (z =? 0)
  | NaN => false
  end.

(** [ToBoolean]: what [if (v)], [!v] and [v || d] test. *)
Definition truthy (v : value) : bool :=
  match v with
  | VUndefined | VNull => false
  | VBool b => b
  | VNum n => num_truthy n
  | VStr s => negb (String.eqb s "")
  end.

(** [a - b] and [Math.abs] on numbers. *)
Definition sub (a b : num) : num :=
  match a, b with
  | Int x, Int y => Int (x - y)
  | _, _ => NaN
  end.

Definition abs (a : num) : num :=
  match a with
  | Int x => Int (Z.abs x)
  | NaN => NaN
  end.

(** [a !== b] on numbers: [NaN] differs from everything, itself included. *)
Definition strict_neq (a b : num) : bool :=
  match a, b with
  | Int x, Int y => negb (x =? y)
  | _, _ => true
  end.

(** *** Decimal digits: [Number.prototype.toString] on integers *)

Definition digit_char (d : N) : ascii := ascii_of_N (48 + d).

Fixpoint digits_go (fuel : nat) (n : N) (acc : text) : text :=
  match fuel with
  | O => acc
  | S fuel =>
      let acc' := digit_char (n mod 10) :: acc in
      if (n <? 10)%N then acc' else digits_go fuel (n / 10) acc'
  end.

(** A number has no more decimal digits than binary ones. *)
Definition digits (n : N) : text :=
  digits_go (S (N.to_nat (N.log2 n))) n [].

Definition Z_to_text (z : Z) : text :=
  if z <? 0 then "-"%char :: digits (Z.abs_N z) else digits (Z.abs_N z).

Definition num_to_text (n : num) : text :=
  match n with
  | Int z => Z_to_text z
  | NaN => list_ascii_of_string "NaN"
  end.

(** [n.toString()] *)
Definition toString (n : num) : string :=
  string_of_list_ascii (num_to_text n).

(** [ToString] on a primitive value. *)
Definition ToString (v : value) : string :=
  match v with
  | VUndefined => "undefined"
  | VNull => "null"
  | VBool true => "true"
  | VBool false => "false"
  | VNum n => toString n
  | VStr s => s
  end.

(** *** White space and [String.prototype.trim] *)

(** TAB, LF, VT, FF, CR, SP and NBSP: the white space and line terminator
    code units below 256. *)
Definition is_white (c : ascii) : bool :=
  match N_of_ascii c with
  | 9 | 10 | 11 | 12 | 13 | 32 | 160 => true
  | _ => false
  end%N.

Fixpoint trimStart (s : text) : text :=
  match s with
  | c :: s' => if is_white c then trimStart s' else s
  | [] => []
  end.

Definition trimEnd (s : text) : text := rev (trimStart (rev s)).

Definition trim (s : string) : string :=
  string_of_list_ascii (trimEnd (trimStart (list_ascii_of_string s))).

(** *** [parseInt] with no radix *)

(** The value of a digit in radix 16, if it is one. *)
Definition hex_value (c : ascii) : option N :=
  let n := N_of_ascii c in
  if ((48 <=? n) && (n <=? 57))%N then Some (n - 48)%N
  else if ((97 <=? n) && (n <=? 102))%N then Some (n - 87)%N
  else if ((65 <=? n) && (n <=? 70))%N then Some (n - 55)%N
  else None.

Definition digit_value (radix : N) (c : ascii) : option N :=
  match hex_value c with
  | Some d => if (d <? radix)%N then Some d else None
  | None => None
  end.

(** The longest prefix of digits, read as a number in the radix; [None]
    when the text does not start with a digit. *)
Fixpoint read_digits (radix : N) (acc : option N) (s : text) : option N :=
  match s with
  | c :: s' =>
      match digit_value radix c with
      | Some d => read_digits radix (Some (radix * default 0%N acc + d)%N) s'
      | None => acc
      end
  | [] => acc
  end.

Definition strip_sign (s : text) : bool * text :=
  match s with
  | "-"%char :: s' => (true, s')
  | "+"%char :: s' => (false, s')
  | _ => (false, s)
  end.

Definition strip_radix (s : text) : N * text :=
  match s with
  | "0"%char :: "x"%char :: s' => (16%N, s')
  | "0"%char :: "X"%char :: s' => (16%N, s')
  | _ => (10%N, s)
  end.

Definition parseInt_text (s : text) : num :=
  let '(negative, s1) := strip_sign (trimStart s) in
  let '(radix, s2) := strip_radix s1 in
  match read_digits radix None s2 with
  | Some n => Int (if negative then - Z.of_N n else Z.of_N n)
  | None => NaN
  end.

(** [parseInt(v)]: the argument is first converted with [ToString]. *)
Definition parseInt (v : value) : num :=
  parseInt_text (list_ascii_of_string (ToString v)).

(** *** [Array.prototype.sort] with a comparison function *)

Section Sort.
Context {A : Type} (comparefn : A → A → num).

(** [SortCompare]: a comparison result of [NaN] counts as [+0]. *)
Definition SortCompare (x y : A) : Z :=
  match comparefn x y with
  | Int v => v
  | NaN => 0
  end.

(** The comparison function places [x] no later than [y]. *)
Definition sorts_before (x y : A) : Prop := SortCompare x y ≤ 0.

(** [x] comes from an earlier position than every element of [l]. *)
Fixpoint sort_insert (x : A) (l : list A) : list A :=
  match l with
  | [] => [x]
  | y :: l' =>
      if SortCompare x y <=? 0 then x :: l else y :: sort_insert x l'
  end.

(** The sort is stable (ECMAScript 2019); it is modelled by the stable
    insertion sort. On a comparison function that orders the elements
    consistently every stable sort returns the same array. *)
Fixpoint sort (l : list A) : list A :=
  match l with
  | [] => []
  | x :: l' => sort_insert x (sort l')
  end.
End Sort.

End JS.

Export JS.

(* ================================================================== *)
(** ** JSON text *)
(* ================================================================== *)

Module JSON.

(** JavaScript values as trees: what the variable [appState] can hold and
    what [JSON.parse] builds. An object lists its properties in the order
    they were defined (property names that are array indices, which come
    first in JavaScript, do not occur in the data of the engine). *)
#[local] Set Warnings "-register-all".
Inductive jsval :=
| JUndefined
| JNull
| JBool (b : bool)
| JNumber (n : num)
| JString (s : string)
| JArray (l : list jsval)
| JObject (o : list (string * jsval)).

(** *** [JSON.stringify] *)

Definition quote_char : ascii := "034"%char.
Definition backslash : ascii := "\"%char.

Definition hex_char (d : N) : ascii :=
  if (d <? 10)%N then ascii_of_N (48 + d) else ascii_of_N (87 + d).

(** [QuoteJSONString], one code unit at a time. *)
Definition escape_char (c : ascii) : text :=
  let n := N_of_ascii c in
  match n with
  | 8 => [backslash; "b"%char]
  | 9 => [backslash; "t"%char]
  | 10 => [backslash; "n"%char]
  | 12 => [backslash; "f"%char]
  | 13 => [backslash; "r"%char]
  | 34 => [backslash; quote_char]
  | 92 => [backslash; backslash]
  | _ =>
      if (n <? 32)%N
      then [backslash; "u"%char; "0"%char; "0"%char;
            hex_char (n / 16); hex_char (n mod 16)]
      else [c]
  end%N.

Fixpoint escape (s : text) : text :=
  match s with
  | [] => []
  | c :: s' => escape_char c ++ escape s'
  end.

Definition quote (s : string) : text :=
  quote_char :: escape (list_ascii_of_string s) ++ [quote_char].

Fixpoint join_comma (parts : list text) : text :=
  match parts with
  | [] => []
  | [p] => p
  | p :: parts' => p ++ ","%char :: join_comma parts'
  end.

Definition null_text : text := list_ascii_of_string "null".

(** [SerializeJSONProperty]: [None] stands for the result [undefined]. An
    array holds [null] in the place of such an element, an object leaves
    the property out; a number that is not finite is written [null]. *)
Fixpoint serialize (v : jsval) : option text :=
  match v with
  | JUndefined => None
  | JNull => Some null_text
  | JBool true => Some (list_ascii_of_string "true")
  | JBool false => Some (list_ascii_of_string "false")
  | JNumber (Int z) => Some (Z_to_text z)
  | JNumber NaN => Some null_text
  | JString s => Some (quote s)
  | JArray l =>
      Some ("["%char ::
            join_comma (map (λ x, default null_text (serialize x)) l)
            ++ ["]"%char])
  | JObject o =>
      Some ("{"%char ::
            join_comma
              (omap (λ kx, (λ t, quote kx.1 ++ ":"%char :: t)
                             <$> serialize kx.2) o)
            ++ ["}"%char])
  end.

Definition stringify (v : jsval) : option string :=
  string_of_list_ascii <$> serialize v.

(** *** [JSON.parse] *)

(** The result of reading a prefix of the text: a value and the rest of
    the text, a syntax error, or text beyond the modelled fragment
    (a number literal with a fraction or exponent, a negative zero, an
    escape for a code unit above 255). *)
Inductive presult (A : Type) :=
| POk (a : A) (rest : text)
| PErr
| PBeyond.
Arguments POk {A} a rest.
Arguments PErr {A}.
Arguments PBeyond {A}.

Definition pmap {A B} (f : A → B) (r : presult A) : presult B :=
  match r with
  | POk a rest => POk (f a) rest
  | PErr => PErr
  | PBeyond => PBeyond
  end.

(** JSON white space: TAB, LF, CR and SP. *)
Definition is_ws (c : ascii) : bool :=
  match N_of_ascii c with
  | 9 | 10 | 13 | 32 => true
  | _ => false
  end%N.

Fixpoint skip_ws (s : text) : text :=
  match s with
  | c :: s' => if is_ws c then skip_ws s' else s
  | [] => []
  end.

Definition hex4 (a b c d : ascii) : option N :=
  match hex_value a, hex_value b, hex_value c, hex_value d with
  | Some x, Some y, Some z, Some w => Some (((x * 16 + y) * 16 + z) * 16 + w)%N
  | _, _, _, _ => None
  end.

(** The character an escape [\e] stands for, [\u] apart. *)
Definition simple_escape (e : ascii) : option ascii :=
  match N_of_ascii e with
  | 34 => Some quote_char
  | 92 => Some backslash
  | 47 => Some "/"%char
  | 98 => Some "008"%char
  | 102 => Some "012"%char
  | 110 => Some "010"%char
  | 114 => Some "013"%char
  | 116 => Some "009"%char
  | _ => None
  end%N.

(** The characters of a string literal after its opening quote, up to and
    including the closing one. *)
Fixpoint string_body (s : text) : presult text :=
  match s with
  | [] => PErr
  | c :: s' =>
      if Ascii.eqb c quote_char then POk [] s'
      else if Ascii.eqb c backslash then
        match s' with
        | [] => PErr
        | e :: s'' =>
            if Ascii.eqb e "u"%char then
              match s'' with
              | h1 :: h2 :: h3 :: h4 :: s3 =>
                  match hex4 h1 h2 h3 h4 with
                  | Some n =>
                      if (n <? 256)%N
                      then pmap (cons (ascii_of_N n)) (string_body s3)
                      else PBeyond
                  | None => PErr
                  end
              | _ => PErr
              end
            else
              match simple_escape e with
              | Some x => pmap (cons x) (string_body s'')
              | None => PErr
              end
        end
      else if (N_of_ascii c <? 32)%N then PErr
      else pmap (cons c) (string_body s')
  end.

Definition string_literal (s : text) : presult string :=
  pmap string_of_list_ascii (string_body s).

Definition is_digit (c : ascii) : bool :=
  let n := N_of_ascii c in ((48 <=? n) && (n <=? 57))%N.

Definition starts_fraction (s : text) : bool :=
  match s with
  | c :: _ => Ascii.eqb c "."%char || Ascii.eqb c "e"%char || Ascii.eqb c "E"%char
  | [] => false
  end.

Fixpoint drop_digits (s : text) : text :=
  match s with
  | c :: s' => if is_digit c then drop_digits s' else s
  | [] => []
  end.

(** The digits of a number literal, its sign already read: a single [0],
    or a non-zero digit followed by digits. *)
Definition unsigned_literal (s : text) : presult N :=
  match s with
  | c :: s' =>
      if Ascii.eqb c "0"%char then
        if starts_fraction s' then PBeyond else POk 0%N s'
      else if is_digit c then
        let rest := drop_digits s' in
        if starts_fraction rest then PBeyond
        else match read_digits 10 None s with
             | Some n => POk n rest
             | None => PErr
             end
      else PErr
  | [] => PErr
  end.

Definition number_literal (s : text) : presult num :=
  match s with
  | c :: s' =>
      if Ascii.eqb c "-"%char then
        match unsigned_literal s' with
        | POk n rest => if (n =? 0)%N then PBeyond else POk (Int (- Z.of_N n)) rest
        | PErr => PErr
        | PBeyond => PBeyond
        end
      else pmap (λ n, Int (Z.of_N n)) (unsigned_literal s)
  | [] => PErr
  end.

(** A property read from the text is defined on the object under
    construction: a repeated name keeps its first place and takes the
    last value. The members after [k] are already in [o]. *)
Definition obj_remove (k : string) (o : list (string * jsval)) :=
  filter (λ kx, kx.1 ≠ k) o.

Definition obj_lookup (k : string) (o : list (string * jsval)) : option jsval :=
  snd <$> find (λ kx, String.eqb kx.1 k) o.

Definition obj_cons (k : string) (v : jsval) (o : list (string * jsval)) :=
  match obj_lookup k o with
  | Some v' => (k, v') :: obj_remove k o
  | None => (k, v) :: o
  end.

Definition literal (word : string) (v : jsval) (s : text) : presult jsval :=
  let w := list_ascii_of_string word in
  if decide (take (length w) s = w) then POk v (drop (length w) s) else PErr.

(** The value at the head of the text; lists of elements and of members
    are read up to and including the closing bracket. Every call reads
    at least one character, so the length of the text is fuel enough. *)
Fixpoint parse_value (fuel : nat) (s : text) : presult jsval :=
  match fuel with
  | O => PBeyond
  | S fuel =>
      match skip_ws s with
      | [] => PErr
      | c :: r =>
          if Ascii.eqb c "{"%char then
            match skip_ws r with
            | c' :: r' =>
                if Ascii.eqb c' "}"%char then POk (JObject []) r'
                else pmap JObject (parse_members fuel r)
            | [] => PErr
            end
          else if Ascii.eqb c "["%char then
            match skip_ws r with
            | c' :: r' =>
                if Ascii.eqb c' "]"%char then POk (JArray []) r'
                else pmap JArray (parse_elements fuel r)
            | [] => PErr
            end
          else if Ascii.eqb c quote_char then pmap JString (string_literal r)
          else if Ascii.eqb c "t"%char then literal "true" (JBool true) (c :: r)
          else if Ascii.eqb c "f"%char then literal "false" (JBool false) (c :: r)
          else if Ascii.eqb c "n"%char then literal "null" JNull (c :: r)
          else pmap JNumber (number_literal (c :: r))
      end
  end
with parse_elements (fuel : nat) (s : text) : presult (list jsval) :=
  match fuel with
  | O => PBeyond
  | S fuel =>
      match parse_value fuel s with
      | POk v r =>
          match skip_ws r with
          | c :: r' =>
              if Ascii.eqb c ","%char then pmap (cons v) (parse_elements fuel r')
              else if Ascii.eqb c "]"%char then POk [v] r'
              else PErr
          | [] => PErr
          end
      | PErr => PErr
      | PBeyond => PBeyond
      end
  end
with parse_members (fuel : nat) (s : text) : presult (list (string * jsval)) :=
  match fuel with
  | O => PBeyond
  | S fuel =>
      match skip_ws s with
      | c :: r =>
          if Ascii.eqb c quote_char then
            match string_literal r with
            | POk k r1 =>
                match skip_ws r1 with
                | c1 :: r2 =>
                    if Ascii.eqb c1 ":"%char then
                      match parse_value fuel r2 with
                      | POk v r3 =>
                          match skip_ws r3 with
                          | c3 :: r4 =>
                              if Ascii.eqb c3 ","%char
                              then pmap (obj_cons k v) (parse_members fuel r4)
                              else if Ascii.eqb c3 "}"%char then POk [(k, v)] r4
                              else PErr
                          | [] => PErr
                          end
                      | PErr => PErr
                      | PBeyond => PBeyond
                      end
                    else PErr
                | [] => PErr
                end
            | PErr => PErr
            | PBeyond => PBeyond
            end
          else PErr
      | [] => PErr
      end
  end.

Inductive parsed :=
| Parsed (v : jsval)
| Malformed
| Beyond.

(** [JSON.parse(s)]: one value, white space around it, nothing else. *)
Definition parse (s : string) : parsed :=
  let t := list_ascii_of_string s in
  match parse_value (S (length t)) t with
  | POk v rest =>
      match skip_ws rest with
      | [] => Parsed v
      | _ :: _ => Malformed
      end
  | PErr => Malformed
  | PBeyond => Beyond
  end.

End JSON.

Export JSON.

(* ================================================================== *)
(** ** Data structure *)
(* ================================================================== *)

(** A task, as the object literal of [addTask] builds it. *)
Module Task.
Record t := mk {
  id : string;
  name : string;
  category : value;
  energy : num;
  priority : option num;       (* [None] is [null] *)
  createdAt : string
}.
End Task.

(** [{...task, completedAt: ...}], the entries of [history]. *)
Module CompletedTask.
Record t := mk {
  task : Task.t;
  completedAt : string
}.
End CompletedTask.

(** [{...task, energyDiff: ..., priorityScore: ...}], the elements of the
    array [orderTasks] returns. *)
Module TaskWithScore.
Record t := mk {
  task : Task.t;
  energyDiff : num;
  priorityScore : num
}.
End TaskWithScore.

(** The [updates] object of [editTask], as far as the properties of a task
    go; a field is [None] when the object has no such property.
    [handleEditSubmit] passes [name], [category], [energy] and [priority]. *)
Module Updates.
Record t := mk {
  id : option string;
  name : option string;
  category : option value;
  energy : option num;
  priority : option (option num);
  createdAt : option string
}.
End Updates.

Record AppState := mkAppState {
  tasks : list Task.t;
  history : list CompletedTask.t;
  currentEnergy : option num;    (* [None] is [null] *)
  dailyRating : option num
}.

(** The initial value of the variable [appState]. *)
Definition initial_appState : AppState :=
  {| tasks := []; history := []; currentEnergy := None; dailyRating := None |}.

(** What the engine reads and writes: the variable [appState], the item
    ['neuroPlannerData'] of LocalStorage ([None]: no such item) and the
    messages shown with [alert], latest first. *)
Record World := mkWorld {
  appState : AppState;
  localStorage : option string;
  alerts : list string
}.

(** The two readings of the clock an operation takes: [Date.now()] and
    [new Date().toISOString()]. *)
Record Clock := mkClock {
  Date_now : Z;
  Date_toISOString : string
}.

Definition with_appState (w : World) (st : AppState) : World :=
  {| appState := st; localStorage := localStorage w; alerts := alerts w |}.

Definition with_tasks (st : AppState) (ts : list Task.t) : AppState :=
  {| tasks := ts; history := history st;
     currentEnergy := currentEnergy st; dailyRating := dailyRating st |}.

Definition alert (msg : string) (w : World) : World :=
  {| appState := appState w; localStorage := localStorage w;
     alerts := msg :: alerts w |}.

(** *** The value of [appState] as a tree *)

Definition of_value (v : value) : jsval :=
  match v with
  | VUndefined => JUndefined
  | VNull => JNull
  | VBool b => JBool b
  | VNum n => JNumber n
  | VStr s => JString s
  end.

Definition of_nullable (o : option num) : jsval :=
  match o with
  | Some n => JNumber n
  | None => JNull
  end.

Definition task_properties (t : Task.t) : list (string * jsval) :=
  [ ("id", JString (Task.id t));
    ("name", JString (Task.name t));
    ("category", of_value (Task.category t));
    ("energy", JNumber (Task.energy t));
    ("priority", of_nullable (Task.priority t));
    ("createdAt", JString (Task.createdAt t)) ]%string.

Definition of_task (t : Task.t) : jsval := JObject (task_properties t).

Definition of_completed (c : CompletedTask.t) : jsval :=
  JObject (task_properties (CompletedTask.task c)
           ++ [("completedAt"%string, JString (CompletedTask.completedAt c))]).

Definition of_appState (st : AppState) : jsval :=
  JObject
    [ ("tasks", JArray (map of_task (tasks st)));
      ("history", JArray (map of_completed (history st)));
      ("currentEnergy", of_nullable (currentEnergy st));
      ("dailyRating", of_nullable (dailyRating st)) ]%string.

(* ================================================================== *)
(** ** LocalStorage management *)
(* ================================================================== *)

(** [loadFromStorage()]: the value the variable [appState] holds after the
    call. An absent item reads as [null], and the empty string is as falsy
    as [null]; [JSON.parse] throws on malformed text. *)
Definition loadFromStorage (w : World) : completion jsval :=
  match localStorage w with
  | Some stored =>
      if negb (String.eqb stored "") then
        match JSON.parse stored with
        | Parsed v => Normal v
        | Malformed => Throw SyntaxError
        | Beyond => Unmodelled
        end
      else Normal (of_appState (appState w))
  | None => Normal (of_appState (appState w))
  end.

(** [saveToStorage()]; [setItem] stores the string form of its argument.
    The quota of LocalStorage is not modelled: the item is always stored. *)
Definition saveToStorage (w : World) : World :=
  {| appState := appState w;
     localStorage :=
       Some (default "undefined"%string (JSON.stringify (of_appState (appState w))));
     alerts := alerts w |}.

(* ================================================================== *)
(** ** Task management *)
(* ================================================================== *)

Definition required_fields_message : string :=
  "Please fill in all required fields (Task Name, Category, and Energy Level)".

(** [addTask(name, category, energy, priority)]. The arguments are tested
    for truthiness before anything is built; [name.trim] exists on strings
    only. *)
Definition addTask (name category energy priority : value)
    (clock : Clock) (w : World) : completion (bool * World) :=
  if negb (truthy name) || negb (truthy category) || negb (truthy energy) then
    Normal (false, alert required_fields_message w)
  else
    match name with
    | VStr s =>
        let task :=
          {| Task.id := toString (Int (Date_now clock));
             Task.name := trim s;
             Task.category := category;
             Task.energy := parseInt energy;
             Task.priority :=
               if truthy priority then Some (parseInt priority) else None;
             Task.createdAt := Date_toISOString clock |} in
        let st := appState w in
        Normal (true,
                saveToStorage (with_appState w (with_tasks st (tasks st ++ [task]))))
    | _ => Throw TypeError
    end.

(** [{...task, ...updates}]: a property of [updates] replaces the property
    of the task, whichever it is. *)
Definition spread_updates (task : Task.t) (updates : Updates.t) : Task.t :=
  {| Task.id := default (Task.id task) (Updates.id updates);
     Task.name := default (Task.name task) (Updates.name updates);
     Task.category := default (Task.category task) (Updates.category updates);
     Task.energy := default (Task.energy task) (Updates.energy updates);
     Task.priority := default (Task.priority task) (Updates.priority updates);
     Task.createdAt := default (Task.createdAt task) (Updates.createdAt updates) |}.

(** [editTask(id, updates)]; [list_find] yields the first match together
    with its index, as [findIndex] followed by the indexed read do. *)
Definition editTask (id : string) (updates : Updates.t) (w : World)
    : bool * World :=
  let st := appState w in
  match list_find (λ t, Task.id t = id) (tasks st) with
  | Some (taskIndex, task) =>
      (true,
       saveToStorage
         (with_appState w
            (with_tasks st (<[taskIndex := spread_updates task updates]> (tasks st)))))
  | None => (false, w)
  end.

(** [deleteTask(id)] *)
Definition deleteTask (id : string) (w : World) : World :=
  let st := appState w in
  saveToStorage
    (with_appState w (with_tasks st (filter (λ t, Task.id t ≠ id) (tasks st)))).

(** [completeTask(id)] *)
Definition completeTask (id : string) (clock : Clock) (w : World) : World :=
  let st := appState w in
  match snd <$> list_find (λ t, Task.id t = id) (tasks st) with
  | Some task =>
      let completedTask :=
        {| CompletedTask.task := task;
           CompletedTask.completedAt := Date_toISOString clock |} in
      saveToStorage
        (with_appState w
           {| tasks := filter (λ t, Task.id t ≠ id) (tasks st);
              history := completedTask :: history st;
              currentEnergy := currentEnergy st;
              dailyRating := dailyRating st |})
  | None => w
  end.

(** The state changes of [handleEnergySelect] and [handleRating]; what they
    redraw is left out. *)
Definition handleEnergySelect (energy : value) (w : World) : World :=
  let st := appState w in
  saveToStorage
    (with_appState w
       {| tasks := tasks st; history := history st;
          currentEnergy := Some (parseInt energy);
          dailyRating := dailyRating st |}).

Definition handleRating (rating : value) (w : World) : World :=
  let st := appState w in
  saveToStorage
    (with_appState w
       {| tasks := tasks st; history := history st;
          currentEnergy := currentEnergy st;
          dailyRating := Some (parseInt rating) |}).

(* ================================================================== *)
(** ** Task ordering algorithm *)
(* ================================================================== *)

(** A [null] operand of [-] counts as [0]. *)
Definition ToNumber (o : option num) : num := default (Int 0) o.

(** [!currentEnergy] is true of [null], [0] and [NaN]. *)
Definition nullable_truthy (o : option num) : bool :=
  match o with
  | Some n => num_truthy n
  | None => false
  end.

(** [task.priority || 4] *)
Definition priority_or_4 (p : option num) : num :=
  if nullable_truthy p then ToNumber p else Int 4.

Definition with_score (currentEnergy : option num) (task : Task.t)
    : TaskWithScore.t :=
  let energyDiff := abs (sub (Task.energy task) (ToNumber currentEnergy)) in
  {| TaskWithScore.task := task;
     TaskWithScore.energyDiff := energyDiff;
     TaskWithScore.priorityScore := priority_or_4 (Task.priority task) |}.

(** The comparison function handed to [sort]. *)
Definition compare_scores (a b : TaskWithScore.t) : num :=
  if strict_neq (TaskWithScore.energyDiff a) (TaskWithScore.energyDiff b)
  then sub (TaskWithScore.energyDiff a) (TaskWithScore.energyDiff b)
  else sub (TaskWithScore.priorityScore a) (TaskWithScore.priorityScore b).

(** [orderTasks(currentEnergy)]: the array returned and the world after the
    call. Only the array built by [map] is sorted in place. *)
Definition orderTasks (currentEnergy : option num) (w : World)
    : list TaskWithScore.t * World :=
  if negb (nullable_truthy currentEnergy)
     || (length (tasks (appState w)) =? 0)%nat
  then ([], w)
  else
    let tasksWithScore := map (with_score currentEnergy) (tasks (appState w)) in
    (sort compare_scores tasksWithScore, w).

(* ================================================================== *)
(** ** The notions of the specification *)
(* ================================================================== *)

(** The ids of the active tasks and of the history entries. *)
Definition task_ids (st : AppState) : list string :=
  map Task.id (tasks st).

Definition history_ids (st : AppState) : list string :=
  map (λ c, Task.id (CompletedTask.task c)) (history st).

(** An id occurs at most once in [tasks] and [history] taken together:
    never twice in either, never in both. *)
Definition ids_unique (st : AppState) : Prop :=
  NoDup (task_ids st ++ history_ids st).

(** The data model: the fixed categories, the energy scale, the priority
    scale. *)
Definition categories : list string :=
  ["cooking"; "cleaning"; "gym"; "paperwork"; "other"]%string.

Definition in_range (lo hi : Z) (n : num) : Prop :=
  match n with
  | Int z => lo ≤ z ≤ hi
  | NaN => False
  end.


Definition valid_category (v : value) : Prop :=
  match v with
  | VStr c => c ∈ categories
  | _ => False
  end.



(** The sort keys in the words of the specification: the distance between
    the energy of the task and the current energy, then the priority, 4
    when there is none. *)
Definition num_Z (n : num) : Z :=
  match n with
  | Int z => z
  | NaN => 0
  end.

Definition spec_energyDiff (currentEnergy : Z) (t : Task.t) : Z :=
  Z.abs (num_Z (Task.energy t) - currentEnergy).

Definition spec_priorityScore (t : Task.t) : Z :=
  match Task.priority t with
  | Some p => num_Z p
  | None => 4
  end.

Definition spec_key (currentEnergy : Z) (t : Task.t) : Z * Z :=
  (spec_energyDiff currentEnergy t, spec_priorityScore t).

(** The keys an element of the returned array carries. *)
Definition score_key (a : TaskWithScore.t) : Z * Z :=
  (num_Z (TaskWithScore.energyDiff a), num_Z (TaskWithScore.priorityScore a)).

Definition scored (a : TaskWithScore.t) : Prop :=
  match TaskWithScore.energyDiff a, TaskWithScore.priorityScore a with
  | Int _, Int _ => True
  | _, _ => False
  end.

(** Ascending order on pairs: the first component decides, the second
    breaks ties. *)
Definition key_le (k1 k2 : Z * Z) : Prop :=
  k1.1 < k2.1 ∨ (k1.1 = k2.1 ∧ k1.2 ≤ k2.2).

(** The tasks whose energy is an integer and whose priority is absent or
    an integer other than 0; every task of the data model is one. *)
Definition scorable (t : Task.t) : Prop :=
  match Task.energy t, Task.priority t with
  | Int _, None => True
  | Int _, Some (Int p) => p ≠ 0
  | _, _ => False
  end.
(* ================================================================== *)
(** ** The text of values *)
(* ================================================================== *)

(** The digits of [n]: not empty, all decimal, no leading zero, and read
    back from the left they give [n]. *)
Record decimal_of (n : N) (ds : text) : Prop := {
  decimal_digits : Forall (λ c, is_digit c = true) ds;
  decimal_head : ∃ c ds', ds = c :: ds' ∧ ((0 < n)%N → c ≠ "0"%char);
  decimal_read : ∀ acc rest,
    read_digits 10 acc (ds ++ rest)
    = read_digits 10
        (Some (n + 10 ^ N.of_nat (length ds) * default 0 acc)%N) rest
}.

(** What follows a value inside a text: nothing, or one of the marks that
    separate or close. *)
Definition delimited (rest : text) : Prop :=
  match rest with
  | [] => True
  | c :: _ => c = ","%char ∨ c = "]"%char ∨ c = "}"%char
  end.

(** The text [JSON.stringify] writes for a value in an array. *)
Definition text_of (v : jsval) : text := default null_text (serialize v).

Definition member_text (kx : string * jsval) : text :=
  quote kx.1 ++ ":"%char :: text_of kx.2.

(** [parse_value] reads the text of [v] back, given fuel for its length
    and whatever follows it. *)
Definition roundtrips (v : jsval) : Prop :=
  ∀ fuel rest, (length (text_of v) ≤ fuel)%nat → delimited rest →
    parse_value fuel (text_of v ++ rest) = POk v rest.

(** The values [JSON.stringify] writes as they are: no [undefined], no
    [NaN], objects with distinct property names. *)
Fixpoint json_clean (v : jsval) : Prop :=
  match v with
  | JUndefined => False
  | JNumber NaN => False
  | JNull | JBool _ | JNumber (Int _) | JString _ => True
  | JArray l => (fix all l := match l with
                             | [] => True
                             | x :: l' => json_clean x ∧ all l'
                             end) l
  | JObject o => NoDup (map fst o)
                 ∧ (fix all o := match o with
                                 | [] => True
                                 | kx :: o' => json_clean kx.2 ∧ all o'
                                 end) o
  end.

(** What [JSON.parse] reads back from the text of a value: [null] where
    the value held [NaN] or, in an array, [undefined]; an object without
    the properties whose value was [undefined]. *)
Fixpoint sanitize (v : jsval) : jsval :=
  match v with
  | JUndefined => JNull
  | JNumber NaN => JNull
  | JArray l => JArray (map sanitize l)
  | JObject o =>
      JObject (omap (λ kx, match kx.2 with
                           | JUndefined => None
                           | _ => Some (kx.1, sanitize kx.2)
                           end) o)
  | _ => v
  end.

(** The objects of a value have distinct property names, as the objects
    of JavaScript do. *)
Fixpoint distinct_keys (v : jsval) : Prop :=
  match v with
  | JArray l => (fix all l := match l with
                             | [] => True
                             | x :: l' => distinct_keys x ∧ all l'
                             end) l
  | JObject o => NoDup (map fst o)
                 ∧ (fix all o := match o with
                                 | [] => True
                                 | kx :: o' => distinct_keys kx.2 ∧ all o'
                                 end) o
  | _ => True
  end.

(** The text [saveToStorage] stores for a state. *)
Definition saved_text (st : AppState) : string :=
  default "undefined"%string (JSON.stringify (of_appState st)).

(** LocalStorage holds no record, or the record of the current state:
    every change of [appState] is followed by [saveToStorage]. *)
Definition storage_current (w : World) : Prop :=
  localStorage w = None ∨ localStorage w = Some (saved_text (appState w)).
(* ================================================================== *)
(** ** Reachable worlds *)
(* ================================================================== *)

(** The worlds the operations can reach, step by step. [fresh] is what a
    step of [addTask] is required to find; with no requirement the steps
    are those of the code. A step of [editTask] carries updates that leave
    the id alone, as those of the edit form do. A step of [loadFromStorage] is recorded when the
    value it leaves in [appState] has the shape of the data structure. *)
Inductive reachable (fresh : Clock → World → Prop) : World → Prop :=
| reach_initial :
    reachable fresh
      {| appState := initial_appState; localStorage := None; alerts := [] |}
| reach_addTask name category energy priority clock w b w' :
    reachable fresh w →
    fresh clock w →
    addTask name category energy priority clock w = Normal (b, w') →
    reachable fresh w'
| reach_editTask id updates w :
    reachable fresh w →
    Updates.id updates = None →
    reachable fresh (editTask id updates w).2
| reach_deleteTask id w :
    reachable fresh w →
    reachable fresh (deleteTask id w)
| reach_completeTask id clock w :
    reachable fresh w →
    reachable fresh (completeTask id clock w)
| reach_handleEnergySelect energy w :
    reachable fresh w →
    reachable fresh (handleEnergySelect energy w)
| reach_handleRating rating w :
    reachable fresh w →
    reachable fresh (handleRating rating w)
| reach_loadFromStorage w st' :
    reachable fresh w →
    loadFromStorage w = Normal (of_appState st') →
    reachable fresh (with_appState w st').

(** No requirement on [addTask]. *)
Definition any_clock (clock : Clock) (w : World) : Prop := True.

(** The id [addTask] derives from the clock is not in use. *)
Definition fresh_id (clock : Clock) (w : World) : Prop :=
  toString (Int (Date_now clock))
  ∉ task_ids (appState w) ++ history_ids (appState w).

(** The validation the specification describes for [addTask]: the name is
    empty once trimmed, the category is not one of the fixed set, or the
    energy is not a level from 1 to 5. *)
Definition spec_rejects (name category energy : value) : Prop :=
  match name with VStr s => trim s = ""%string | _ => True end
  ∨ ¬ valid_category category
  ∨ ¬ in_range 1 5 (parseInt energy).

Definition returns_false {A} (r : completion (bool * A)) : Prop :=
  ∃ a, r = Normal (false, a).

(** The clock has moved on since every task in the state was created: each
    id is the reading of an earlier millisecond. *)
Definition later_clock (clock : Clock) (w : World) : Prop :=
  ∀ i, i ∈ task_ids (appState w) ++ history_ids (appState w) →
       ∃ t, i = toString (Int t) ∧ t < Date_now clock.
(* ================================================================== *)
(** ** Sample data *)
(* ================================================================== *)

Definition sample_clock : Clock :=
  {| Date_now := 1760000000000;
     Date_toISOString := "2025-10-09T08:53:20.000Z" |}.

Definition sample_task (id : string) (energy : Z) (priority : option Z)
    : Task.t :=
  {| Task.id := id; Task.name := "laundry"; Task.category := VStr "cleaning";
     Task.energy := Int energy; Task.priority := Int <$> priority;
     Task.createdAt := "2025-10-09T08:00:00.000Z" |}.

Definition sample_state : AppState :=
  {| tasks := [sample_task "17" 3 (Some 2); sample_task "18" 1 (Some 1);
               sample_task "19" 3 None];
     history := [ {| CompletedTask.task := sample_task "16" 5 None;
                     CompletedTask.completedAt := "2025-10-09T08:30:00.000Z" |} ];
     currentEnergy := Some (Int 3);
     dailyRating := None |}.

Definition sample_world : World :=
  saveToStorage {| appState := sample_state; localStorage := None; alerts := [] |}.

Definition empty_world : World :=
  {| appState := initial_appState; localStorage := None; alerts := [] |}.

Definition sample_updates : Updates.t :=
  {| Updates.id := None;
     Updates.name := Some "ironing"%string;
     Updates.category := Some (VStr "cleaning");
     Updates.energy := Some (Int 2);
     Updates.priority := Some None;
     Updates.createdAt := None |}.

(* ================================================================== *)
(** ** Event handlers *)
(* ================================================================== *)

(** The handlers read the fields of a form, which hold strings, and call
    the engine; what they reset, show and redraw is left out. *)

(** [handleTaskSubmit(e)]: the outcome of the call of [addTask]; on [true]
    the form is reset. *)
Definition handleTaskSubmit (name category energy priority : string)
    (clock : Clock) (w : World) : completion (bool * World) :=
  addTask (VStr name) (VStr category) (VStr energy) (VStr priority) clock w.

(** The [updates] object [handleEditSubmit] builds from the edit form. *)
Definition form_updates (name category energy priority : string) : Updates.t :=
  {| Updates.id := None;
     Updates.name := Some (trim name);
     Updates.category := Some (VStr category);
     Updates.energy := Some (parseInt (VStr energy));
     Updates.priority :=
       Some (if truthy (VStr priority) then Some (parseInt (VStr priority))
             else None);
     Updates.createdAt := None |}.

(** [handleEditSubmit(e)]: the outcome of the call of [editTask]; on [true]
    the edit form is closed. *)
Definition handleEditSubmit (id name category energy priority : string)
    (w : World) : bool * World :=
  editTask id (form_updates name category energy priority) w.

(** The values [handleEdit] assigns to the fields of the edit form. *)
Module EditForm.
Record t := mk {
  id : value;
  name : value;
  category : value;
  energy : value;
  priority : value
}.
End EditForm.

(** [task.priority || ''] *)
Definition priority_or_empty (p : option num) : value :=
  if nullable_truthy p then VNum (ToNumber p) else VStr "".

(** [handleEdit(id)]: [None] when no task has the id and the handler
    returns at once. *)
Definition handleEdit (id : string) (w : World) : option EditForm.t :=
  match snd <$> list_find (λ t, Task.id t = id) (tasks (appState w)) with
  | Some task =>
      Some {| EditForm.id := VStr (Task.id task);
              EditForm.name := VStr (Task.name task);
              EditForm.category := Task.category task;
              EditForm.energy := VNum (Task.energy task);
              EditForm.priority := priority_or_empty (Task.priority task) |}
  | None => None
  end.

(* ================================================================== *)
(** ** Labels *)
(* ================================================================== *)

(** The labels hold characters beyond the code units of [string]: they are
    kept as lists of UTF-16 code units. *)
Abbreviation units := (list N).






(** The object [emojis] of [getCategoryEmoji]: U+1F373, U+1F9F9, U+1F4AA,
    U+1F4C4 and U+1F4CC as surrogate pairs. *)
Definition pin : units := [55357; 56524]%N.

Definition category_emojis : list (string * units) :=
  [ ("cooking", [55356; 57203]); ("cleaning", [55358; 56825]);
    ("gym", [55357; 56490]); ("paperwork", [55357; 56516]);
    ("other", pin) ]%string%N.

(** The names every object inherits from [Object.prototype] (ECMAScript,
    Annex B included): looked up on [emojis] they give a function or an
    object, which is truthy. *)
Definition Object_prototype_names : list string :=
  [ "constructor"; "hasOwnProperty"; "isPrototypeOf"; "propertyIsEnumerable";
    "toLocaleString"; "toString"; "valueOf"; "__proto__";
    "__defineGetter__"; "__defineSetter__"; "__lookupGetter__";
    "__lookupSetter__" ]%string.

(** What [getCategoryEmoji] returns: a label, or the value inherited under
    the name. *)
Inductive category_label :=
| Label (s : units)
| Inherited (name : string).

(** [getCategoryEmoji(category)]: the property key is the string form of
    the category. *)
Definition getCategoryEmoji (category : value) : category_label :=
  let key := ToString category in
  match snd <$> find (λ kx, String.eqb kx.1 key) category_emojis with
  | Some s => Label s
  | None =>
      if bool_decide (key ∈ Object_prototype_names) then Inherited key
      else Label pin
  end.

(* ================================================================== *)
(** ** Further notions *)
(* ================================================================== *)




(** [Number.isSafeInteger]: the integers a JavaScript number holds exactly,
    which [toString] writes digit by digit and [parseInt] reads back. *)
Definition safe_integer (z : Z) : Prop := - 2 ^ 53 < z < 2 ^ 53.

Definition safe_num (n : num) : Prop :=
  match n with
  | Int z => safe_integer z
  | NaN => True
  end.

(** The value is a string, the only kind with a method [trim]. *)
Definition is_string (v : value) : bool :=
  match v with
  | VStr _ => true
  | _ => false
  end.

(* ================================================================== *)
(** ** Properties of the runtime fragment: sorting *)
(* ================================================================== *)

Section SortFacts.
Context {A : Type} (comparefn : A → A → num).
Implicit Types (x y : A) (l : list A).

Local Abbreviation sb := (sorts_before comparefn).
Local Abbreviation ins := (sort_insert comparefn).

Lemma sort_insert_Permutation x l : ins x l ≡ₚ x :: l.
Proof.
  induction l as [|y l IH]; simpl; [done|].
  destruct (SortCompare comparefn x y <=? 0); [done|].
  rewrite IH. apply Permutation_swap.
Qed.

Lemma sort_Permutation l : sort comparefn l ≡ₚ l.
Proof.
  induction l as [|x l IH]; simpl; [done|].
  by rewrite sort_insert_Permutation, IH.
Qed.

Lemma sort_insert_cases x y l :
  (sb x y ∧ ins x (y :: l) = x :: y :: l)
  ∨ (¬ sb x y ∧ ins x (y :: l) = y :: ins x l).
Proof.
  unfold sorts_before. simpl.
  destruct (Z.leb_spec (SortCompare comparefn x y) 0); [left|right]; split;
    (done || lia).
Qed.

(** On a class of elements on which the comparison function is a total
    preorder, the result is sorted. *)
Section Sorted.
Context (ok : A → Prop).
Hypothesis sb_total : ∀ x y, ok x → ok y → sb x y ∨ sb y x.
Hypothesis sb_trans : ∀ x y z, ok x → ok y → ok z → sb x y → sb y z → sb x z.

Lemma sort_insert_StronglySorted x l :
  ok x → Forall ok l → StronglySorted sb l → StronglySorted sb (ins x l).
Proof.
  intros Hx Hl Hs. induction Hs as [|y l Hs IH Hy].
  { repeat constructor. }
  apply Forall_cons in Hl as [Hoy Hl].
  destruct (sort_insert_cases x y l) as [[Hxy ->]|[Hxy ->]].
  - constructor; [by constructor|].
    constructor; [done|].
    rewrite Forall_forall in Hy, Hl |- *. intros z Hz.
    apply (sb_trans x y z); auto.
  - constructor; [auto|].
    rewrite (sort_insert_Permutation x l).
    constructor; [|done].
    destruct (sb_total x y); tauto.
Qed.

Lemma sort_StronglySorted l :
  Forall ok l → StronglySorted sb (sort comparefn l).
Proof.
  induction 1 as [|x l Hx Hl IH]; simpl; [constructor|].
  apply sort_insert_StronglySorted; [done| |done].
  by rewrite sort_Permutation.
Qed.
End Sorted.

(** Stability: the elements of a class the comparison function does not
    tell apart come out in the order they went in. *)
Section Stable.
Context (P : A → Prop) `{!∀ x, Decision (P x)}.

Lemma sort_insert_filter x l :
  (∀ y, y ∈ l → P x → P y → sb x y) →
  filter P (ins x l) = filter P (x :: l).
Proof.
  induction l as [|y l IH]; intros Hsb; [done|].
  destruct (sort_insert_cases x y l) as [[Hxy ->]|[Hxy ->]]; [done|].
  assert (Hl : ∀ z, z ∈ l → P x → P z → sb x z).
  { intros z Hz. apply Hsb. by right. }
  specialize (IH Hl).
  assert (Hno : P x → P y → False).
  { intros Hx Hy. apply Hxy, Hsb; [left|..]; done. }
  rewrite filter_cons, IH, !filter_cons.
  destruct (decide (P y)), (decide (P x)); tauto || done.
Qed.

Lemma sort_stable l :
  (∀ x y, x ∈ l → y ∈ l → P x → P y → sb x y) →
  filter P (sort comparefn l) = filter P l.
Proof.
  induction l as [|x l IH]; intros Hsb; [done|]. simpl.
  rewrite sort_insert_filter.
  - rewrite !filter_cons, IH; [done|].
    intros y z Hy Hz. apply Hsb; by right.
  - intros y Hy. rewrite sort_Permutation in Hy.
    apply Hsb; [left|right]; done.
Qed.
End Stable.
End SortFacts.

Lemma StronglySorted_fmap {A B} (R : A → A → Prop) (R' : B → B → Prop)
    (f : A → B) (l : list A) :
  (∀ x y, x ∈ l → y ∈ l → R x y → R' (f x) (f y)) →
  StronglySorted R l → StronglySorted R' (map f l).
Proof.
  intros HR Hs. induction Hs as [|x l Hs IH Hx]; simpl; [constructor|].
  constructor.
  - apply IH. intros y z Hy Hz. apply HR; by right.
  - rewrite Forall_forall in Hx. apply Forall_forall. intros y' Hy'.
    apply list_elem_of_fmap in Hy' as (y & -> & Hy).
    apply HR; [left|right|]; auto.
Qed.

(* ================================================================== *)
(** ** Properties of the runtime fragment: numbers and strings as text *)
(* ================================================================== *)

Section Digits.
Local Open Scope N_scope.

Lemma digit_char_is_digit d : d < 10 → is_digit (digit_char d) = true.
Proof.
  intros Hd. unfold is_digit, digit_char.
  rewrite N_ascii_embedding by lia.
  apply andb_true_intro. split; apply N.leb_le; lia.
Qed.

Lemma digit_char_value d : d < 10 → digit_value 10 (digit_char d) = Some d.
Proof.
  intros Hd. unfold digit_value, hex_value, digit_char.
  rewrite N_ascii_embedding by lia.
  replace ((48 <=? 48 + d) && (48 + d <=? 57))%bool with true.
  - replace (48 + d - 48) with d by lia.
    destruct (N.ltb_spec d 10); [done|lia].
  - symmetry. apply andb_true_intro. split; apply N.leb_le; lia.
Qed.

Lemma digit_char_zero d : d < 10 → digit_char d = "0"%char → d = 0.
Proof.
  intros Hd H. apply (f_equal N_of_ascii) in H. unfold digit_char in H.
  rewrite N_ascii_embedding in H by lia. simpl in H. lia.
Qed.

Lemma is_digit_value c : is_digit c = true → ∃ d, digit_value 10 c = Some d.
Proof.
  unfold is_digit, digit_value, hex_value. intros H. rewrite H.
  apply andb_prop in H as [H1%N.leb_le H2%N.leb_le].
  exists (N_of_ascii c - 48). destruct (N.ltb_spec (N_of_ascii c - 48) 10); [done|lia].
Qed.

Lemma not_digit_value c : is_digit c = false → digit_value 10 c = None.
Proof.
  unfold is_digit, digit_value, hex_value. cbv zeta. intros ->.
  destruct ((97 <=? N_of_ascii c) && (N_of_ascii c <=? 102))%bool eqn:E1.
  { apply andb_prop in E1 as [H1%N.leb_le H2%N.leb_le].
    destruct (N.ltb_spec (N_of_ascii c - 87) 10); [lia|done]. }
  destruct ((65 <=? N_of_ascii c) && (N_of_ascii c <=? 70))%bool eqn:E2; [|done].
  apply andb_prop in E2 as [H1%N.leb_le H2%N.leb_le].
  destruct (N.ltb_spec (N_of_ascii c - 55) 10); [lia|done].
Qed.

Lemma digits_go_decimal fuel n acc :
  n < 2 ^ N.of_nat (S fuel) →
  ∃ ds, digits_go (S fuel) n acc = ds ++ acc ∧ decimal_of n ds.
Proof.
  revert n acc. induction fuel as [|fuel IH]; intros n acc Hn;
    cbn [digits_go]; destruct (N.ltb_spec n 10) as [Hlt|Hge].
  1, 3: exists [digit_char n]; rewrite N.mod_small by done;
    (split; [done|]); split;
    [ repeat constructor; by apply digit_char_is_digit
    | exists (digit_char n), []; (split; [done|]);
      intros Hpos Hz; apply digit_char_zero in Hz; lia
    | intros a rest; cbn [app read_digits length];
      rewrite digit_char_value by done; do 2 f_equal;
      change (N.of_nat 1) with 1; lia ].
  - change (2 ^ N.of_nat 1) with 2 in Hn. lia.
  - assert (Hdiv : n / 10 < 2 ^ N.of_nat (S fuel)).
    { apply N.Div0.div_lt_upper_bound.
      rewrite (Nat2N.inj_succ (S fuel)), N.pow_succ_r' in Hn. lia. }
    destruct (IH (n / 10) (digit_char (n mod 10) :: acc) Hdiv)
      as (ds & Hgo & [Hd (c & ds' & -> & Hc) Hr]).
    exists ((c :: ds') ++ [digit_char (n mod 10)]).
    assert (Hm : n mod 10 < 10) by (apply N.mod_lt; lia).
    split; [by rewrite <- app_assoc|]. split.
    + apply Forall_app. split; [done|].
      repeat constructor. by apply digit_char_is_digit.
    + exists c, (ds' ++ [digit_char (n mod 10)]). split; [done|].
      intros _. apply Hc. apply N.div_str_pos. lia.
    + intros a rest. rewrite length_app, <- app_assoc, Hr.
      cbn [app read_digits].
      rewrite digit_char_value by done. cbn [default length]. do 2 f_equal.
      rewrite Nat2N.inj_add, N.pow_add_r. change (N.of_nat 1) with 1.
      rewrite N.pow_1_r.
      pose proof (N.div_mod n 10). unfold id.
      generalize (10 ^ N.of_nat (S (length ds'))) (default 0 a).
      intros X Y. nia.
Qed.

Lemma digits_decimal n : decimal_of n (digits n).
Proof.
  unfold digits.
  destruct (digits_go_decimal (N.to_nat (N.log2 n)) n []) as (ds & -> & H).
  - rewrite Nat2N.inj_succ, N2Nat.id. destruct n; [done|].
    apply N.log2_lt_pow2; [done|]. lia.
  - by rewrite app_nil_r.
Qed.
End Digits.

Lemma delimited_not_digit c rest :
  delimited (c :: rest) →
  is_digit c = false ∧ is_ws c = false ∧ starts_fraction (c :: rest) = false.
Proof. intros [-> | [-> | ->]]; done. Qed.

Lemma delimited_read_digits acc rest :
  delimited rest → read_digits 10 acc rest = acc.
Proof.
  destruct rest as [|c rest]; [done|].
  intros (H & _ & _)%delimited_not_digit. simpl.
  by rewrite (not_digit_value c H).
Qed.

Lemma delimited_drop_digits rest : delimited rest → drop_digits rest = rest.
Proof.
  destruct rest as [|c rest]; [done|].
  intros (H & _ & _)%delimited_not_digit. simpl. by rewrite H.
Qed.

Lemma delimited_starts_fraction rest : delimited rest → starts_fraction rest = false.
Proof.
  destruct rest as [|c rest]; [done|].
  by intros (_ & _ & H)%delimited_not_digit.
Qed.

Lemma delimited_skip_ws rest : delimited rest → skip_ws rest = rest.
Proof.
  destruct rest as [|c rest]; [done|].
  intros (_ & H & _)%delimited_not_digit. simpl. by rewrite H.
Qed.

Lemma drop_digits_app ds rest :
  Forall (λ c, is_digit c = true) ds → drop_digits (ds ++ rest) = drop_digits rest.
Proof. induction 1 as [|c ds Hc _ IH]; simpl; [done|]. by rewrite Hc. Qed.

(** A digit is none of the characters that open another kind of value. *)
Lemma is_digit_not_mark c :
  is_digit c = true ∨ c = "-"%char →
  Ascii.eqb c "{"%char = false ∧ Ascii.eqb c "["%char = false
  ∧ Ascii.eqb c quote_char = false ∧ Ascii.eqb c "t"%char = false
  ∧ Ascii.eqb c "f"%char = false ∧ Ascii.eqb c "n"%char = false
  ∧ is_ws c = false.
Proof.
  intros [H | ->]; [|done].
  destruct c as [[] [] [] [] [] [] [] []]; try discriminate H; done.
Qed.

Lemma unsigned_literal_digits n rest :
  delimited rest → unsigned_literal (digits n ++ rest) = POk n rest.
Proof.
  intros Hrest. destruct (N.eq_dec n 0%N) as [->|Hn].
  { change (digits 0%N) with ["0"%char]. simpl.
    by rewrite delimited_starts_fraction. }
  destruct (digits_decimal n) as [Hd (c & ds' & Heq & Hc) Hr].
  specialize (Hr None rest). rewrite Heq in Hd, Hr |- *.
  apply Forall_cons in Hd as [Hdc Hd].
  unfold unsigned_literal. cbn [app].
  destruct (Ascii.eqb_spec c "0") as [->|_]; [destruct Hc; [lia|done]|].
  rewrite Hdc, drop_digits_app, delimited_drop_digits by done.
  rewrite delimited_starts_fraction by done.
  cbn [app] in Hr. rewrite Hr, delimited_read_digits by done.
  f_equal. simpl. lia.
Qed.

Lemma Z_to_text_head z :
  ∃ c t, Z_to_text z = c :: t ∧ (is_digit c = true ∨ c = "-"%char).
Proof.
  unfold Z_to_text. destruct (z <? 0); [by eauto|].
  destruct (digits_decimal (Z.abs_N z)) as [Hd (c & ds' & Heq & _) _].
  rewrite Heq in Hd |- *. apply Forall_cons in Hd as [Hc _]. eauto.
Qed.

Lemma number_literal_Z_to_text z rest :
  delimited rest → number_literal (Z_to_text z ++ rest) = POk (Int z) rest.
Proof.
  intros Hrest. unfold Z_to_text. destruct (Z.ltb_spec z 0) as [Hz|Hz].
  - cbn [app number_literal]. change (Ascii.eqb "-" "-") with true. cbn match.
    rewrite unsigned_literal_digits by done.
    destruct (N.eqb_spec (Z.abs_N z) 0%N) as [H0|_]; [lia|].
    do 2 f_equal. lia.
  - destruct (digits_decimal (Z.abs_N z)) as [Hd (c & ds' & Heq & _) _].
    pose proof (unsigned_literal_digits (Z.abs_N z) rest Hrest) as Hu.
    rewrite Heq in Hd, Hu |- *. apply Forall_cons in Hd as [Hc _].
    cbn [app number_literal] in *.
    destruct (Ascii.eqb_spec c "-") as [->|_]; [done|].
    rewrite Hu. simpl. do 2 f_equal. lia.
Qed.

(** *** String literals *)

Lemma string_body_escape_char c tail :
  string_body (escape_char c ++ tail) = pmap (cons c) (string_body tail).
Proof. destruct c as [[] [] [] [] [] [] [] []]; reflexivity. Qed.

Lemma string_body_escape s rest :
  string_body (escape s ++ quote_char :: rest) = POk s rest.
Proof.
  induction s as [|c s IH]; [done|].
  cbn [escape]. rewrite <- app_assoc, string_body_escape_char, IH. done.
Qed.

Lemma string_literal_quote s rest :
  ∃ t, quote s = quote_char :: t ∧ string_literal (t ++ rest) = POk s rest.
Proof.
  exists (escape (list_ascii_of_string s) ++ [quote_char]). split; [done|].
  unfold string_literal. rewrite <- app_assoc. cbn [app].
  rewrite string_body_escape. cbn [pmap].
  by rewrite string_of_list_ascii_of_string.
Qed.

(* ================================================================== *)
(** ** [JSON.parse] reads back what [JSON.stringify] writes *)
(* ================================================================== *)

Lemma jsval_ind' (P : jsval → Prop) :
  P JUndefined → P JNull → (∀ b, P (JBool b)) → (∀ n, P (JNumber n)) →
  (∀ s, P (JString s)) →
  (∀ l, Forall P l → P (JArray l)) →
  (∀ o, Forall (λ kx, P kx.2) o → P (JObject o)) →
  ∀ v, P v.
Proof.
  intros Hu Hn Hb Hnum Hs Ha Ho.
  fix IH 1.
  intros [| |b|n|s|l|o];
    [exact Hu | exact Hn | apply Hb | apply Hnum | apply Hs | |].
  - apply Ha. induction l as [|x l IHl]; constructor; [apply IH | exact IHl].
  - apply Ho. induction o as [|[k x] o IHo]; constructor; [apply IH | exact IHo].
Qed.

Lemma json_clean_array l : json_clean (JArray l) ↔ Forall json_clean l.
Proof.
  simpl. induction l as [|x l IH]; [by split; constructor|].
  rewrite IH. split.
  - intros [? ?]. by constructor.
  - by inversion 1.
Qed.

Lemma json_clean_object o :
  json_clean (JObject o)
  ↔ NoDup (map fst o) ∧ Forall (λ kx, json_clean kx.2) o.
Proof.
  simpl. apply and_iff_compat_l.
  induction o as [|x l IH]; [by split; constructor|].
  rewrite IH. split.
  - intros [? ?]. by constructor.
  - by inversion 1.
Qed.

Lemma serialize_clean v : json_clean v → serialize v = Some (text_of v).
Proof.
  unfold text_of. destruct v as [| |[]|[]|s|l|o]; simpl; try done.
Qed.

Lemma text_of_array l :
  text_of (JArray l) = "["%char :: join_comma (map text_of l) ++ ["]"%char].
Proof. done. Qed.

Lemma text_of_object o :
  Forall (λ kx, json_clean kx.2) o →
  text_of (JObject o) = "{"%char :: join_comma (map member_text o) ++ ["}"%char].
Proof.
  intros Ho. unfold text_of. simpl. do 3 f_equal.
  induction Ho as [|[k x] o Hx Ho IH]; [done|].
  cbn [omap list_omap map fst snd]. simpl in Hx. rewrite (serialize_clean x Hx).
  cbn [fmap option_fmap option_map]. rewrite IH. done.
Qed.

(** The first character of a value is no white space and no closing mark. *)
Lemma text_of_head v :
  json_clean v →
  ∃ c t, text_of v = c :: t ∧ is_ws c = false
         ∧ Ascii.eqb c "]"%char = false ∧ Ascii.eqb c "}"%char = false.
Proof.
  destruct v as [| |[]|[z|]|s|l|o]; try done; intros Hv; try (by eexists _, _).
  destruct (Z_to_text_head z) as (c & t & Heq & Hc).
  exists c, t. split; [done|].
  destruct (is_digit_not_mark c Hc) as (_ & _ & _ & _ & _ & _ & Hws).
  split; [done|].
  destruct Hc as [Hc | ->]; [|done].
  destruct c as [[] [] [] [] [] [] [] []]; try discriminate Hc; done.
Qed.

Lemma join_comma_cons p ps :
  join_comma (p :: ps)
  = match ps with [] => p | _ :: _ => p ++ ","%char :: join_comma ps end.
Proof. done. Qed.

Lemma obj_cons_fresh k v o : k ∉ map fst o → obj_cons k v o = (k, v) :: o.
Proof.
  intros Hk. unfold obj_cons, obj_lookup.
  replace (find _ o) with (@None (string * jsval)); [done|].
  symmetry. induction o as [|[k' x] o IH]; [done|]. simpl.
  destruct (String.eqb_spec k' k) as [->|_].
  - destruct Hk. simpl. by left.
  - apply IH. intros H. apply Hk. simpl. by right.
Qed.

Lemma parse_elements_text l :
  Forall json_clean l → Forall (λ x, json_clean x → roundtrips x) l →
  l ≠ [] →
  ∀ fuel rest,
    (length (join_comma (map text_of l)) + 1 ≤ fuel)%nat →
    parse_elements fuel (join_comma (map text_of l) ++ "]"%char :: rest)
    = POk l rest.
Proof.
  intros Hc Hl. induction Hl as [|x l Hx Hl IH]; [done|]. intros _.
  apply Forall_cons in Hc as [Hcx Hc]. specialize (Hx Hcx).
  intros fuel rest Hfuel. destruct fuel as [|fuel]; [lia|].
  destruct l as [|y l].
  - change (join_comma (map text_of [x])) with (text_of x) in *.
    cbn [parse_elements].
    rewrite Hx; [|lia|simpl; auto]. by simpl.
  - change (join_comma (map text_of (x :: y :: l)))
      with (text_of x ++ ","%char :: join_comma (map text_of (y :: l))) in *.
    set (tail := join_comma (map text_of (y :: l))) in *.
    rewrite length_app in Hfuel. cbn [length] in Hfuel.
    rewrite <- app_assoc. cbn [app parse_elements].
    rewrite Hx; [|lia|simpl; auto]. simpl skip_ws. cbv iota.
    change (Ascii.eqb "," ",") with true. cbv iota.
    rewrite IH; [done|done|done|lia].
Qed.

Lemma parse_members_text o :
  NoDup (map fst o) →
  Forall (λ kx, json_clean kx.2) o →
  Forall (λ kx, json_clean kx.2 → roundtrips kx.2) o →
  o ≠ [] →
  ∀ fuel rest,
    (length (join_comma (map member_text o)) + 1 ≤ fuel)%nat →
    parse_members fuel (join_comma (map member_text o) ++ "}"%char :: rest)
    = POk o rest.
Proof.
  intros Hk Hc Ho. induction Ho as [|[k x] o Hx Ho IH]; [done|]. intros _.
  apply Forall_cons in Hc as [Hcx Hc]. specialize (Hx Hcx). cbn [snd] in Hx.
  cbn [map fst] in Hk. apply NoDup_cons in Hk as [Hk Hks].
  intros fuel rest Hfuel. destruct fuel as [|fuel]; [lia|].
  destruct o as [|y o].
  - change (join_comma (map member_text [(k, x)]))
      with (quote k ++ ":"%char :: text_of x) in *.
    destruct (string_literal_quote k (":"%char :: text_of x ++ "}"%char :: rest))
      as (tk & Hq & Hlit).
    rewrite Hq in *. rewrite <- app_assoc. cbn [app parse_members skip_ws].
    change (is_ws quote_char) with false. cbv iota.
    change (Ascii.eqb quote_char quote_char) with true. cbv iota.
    rewrite Hlit. cbn [skip_ws]. change (is_ws ":") with false. cbv iota.
    change (Ascii.eqb ":" ":") with true. cbv iota.
    rewrite length_app in Hfuel. cbn [length] in Hfuel.
    rewrite Hx; [|lia|simpl; auto]. by simpl.
  - change (join_comma (map member_text ((k, x) :: y :: o)))
      with ((quote k ++ ":"%char :: text_of x)
              ++ ","%char :: join_comma (map member_text (y :: o))) in *.
    set (tail := join_comma (map member_text (y :: o))) in *.
    destruct (string_literal_quote k
      (":"%char :: text_of x ++ ","%char :: tail ++ "}"%char :: rest))
      as (tk & Hq & Hlit).
    rewrite Hq in *. rewrite <- !app_assoc. cbn [app parse_members skip_ws].
    change (is_ws quote_char) with false. cbv iota.
    change (Ascii.eqb quote_char quote_char) with true. cbv iota.
    rewrite Hlit. cbn [skip_ws]. change (is_ws ":") with false. cbv iota.
    change (Ascii.eqb ":" ":") with true. cbv iota.
    rewrite !length_app in Hfuel. cbn [length] in Hfuel.
    rewrite ?length_app in Hfuel. cbn [length] in Hfuel.
    rewrite Hx; [|lia|simpl; auto]. simpl skip_ws. cbv iota.
    change (Ascii.eqb "," ",") with true. cbv iota.
    rewrite IH; [|done|done|done|lia]. cbn [pmap].
    by rewrite obj_cons_fresh.
Qed.

Lemma literal_word word v rest :
  literal word v (list_ascii_of_string word ++ rest) = POk v rest.
Proof.
  unfold literal.
  rewrite take_app_length, drop_app_length. by rewrite decide_True.
Qed.

Lemma parse_value_text_of v : json_clean v → roundtrips v.
Proof.
  induction v as [| |b|n|s|l IH|o IH] using jsval_ind'; intros Hv;
    [done|..]; intros fuel rest Hfuel Hrest;
    (destruct fuel as [|fuel]; [destruct (text_of_head _ Hv) as (? & ? & Ht & _);
                                rewrite Ht in Hfuel; simpl in Hfuel; lia|]).
  - change (text_of JNull) with (list_ascii_of_string "null").
    rewrite <- (literal_word "null" JNull rest). done.
  - destruct b.
    + change (text_of (JBool true)) with (list_ascii_of_string "true").
      rewrite <- (literal_word "true" (JBool true) rest). done.
    + change (text_of (JBool false)) with (list_ascii_of_string "false").
      rewrite <- (literal_word "false" (JBool false) rest). done.
  - destruct n as [z|]; [|done].
    change (text_of (JNumber (Int z))) with (Z_to_text z) in *.
    pose proof (number_literal_Z_to_text z rest Hrest) as Hnum.
    destruct (Z_to_text_head z) as (c & t & Heq & Hc). rewrite Heq in *.
    destruct (is_digit_not_mark c Hc) as (H1 & H2 & H3 & H4 & H5 & H6 & H7).
    cbn [app parse_value skip_ws]. rewrite H7, H1, H2, H3, H4, H5, H6.
    cbn [app] in Hnum. by rewrite Hnum.
  - change (text_of (JString s)) with (quote s) in *.
    destruct (string_literal_quote s rest) as (t & Hq & Hlit). rewrite Hq.
    cbn [app parse_value skip_ws]. change (is_ws quote_char) with false. cbv iota.
    change (Ascii.eqb quote_char "{") with false.
    change (Ascii.eqb quote_char "[") with false.
    change (Ascii.eqb quote_char quote_char) with true. cbv iota.
    by rewrite Hlit.
  - apply json_clean_array in Hv. rewrite text_of_array in *.
    cbn [app parse_value skip_ws]. change (is_ws "[") with false. cbv iota.
    change (Ascii.eqb "[" "{") with false. change (Ascii.eqb "[" "[") with true.
    cbv iota. rewrite <- app_assoc. cbn [app].
    destruct l as [|x l]; [done|].
    assert (Hhd : ∃ c t, join_comma (map text_of (x :: l)) = c :: t
                   ∧ is_ws c = false ∧ Ascii.eqb c "]" = false).
    { apply Forall_cons in Hv as [Hx _].
      destruct (text_of_head x Hx) as (c & t & Ht & Hws & Hc & _).
      cbn [map]. rewrite join_comma_cons, Ht.
      destruct (map text_of l); eauto. }
    destruct Hhd as (c & t & Hjc & Hws & Hc).
    rewrite Hjc at 1. cbn [app skip_ws]. rewrite Hws, Hc.
    cbn [length] in Hfuel. rewrite length_app in Hfuel. cbn [length] in Hfuel.
    rewrite parse_elements_text; [done|done|done|done|lia].
  - apply json_clean_object in Hv as [Hk Hv]. rewrite text_of_object in * by done.
    cbn [app parse_value skip_ws]. change (is_ws "{") with false. cbv iota.
    change (Ascii.eqb "{" "{") with true.
    cbv iota. rewrite <- app_assoc. cbn [app].
    destruct o as [|[k x] o]; [done|].
    assert (Hhd : ∃ t, join_comma (map member_text ((k, x) :: o)) = quote_char :: t).
    { cbn [map]. rewrite join_comma_cons.
      destruct (map member_text o); unfold member_text, quote; cbn [app]; eauto. }
    destruct Hhd as (t & Hjc).
    rewrite Hjc at 1. cbn [app skip_ws]. change (is_ws quote_char) with false.
    cbv iota. change (Ascii.eqb quote_char "}") with false. cbv iota.
    cbn [length] in Hfuel. rewrite length_app in Hfuel. cbn [length] in Hfuel.
    rewrite parse_members_text; [done|done|done|done|done|lia].
Qed.

(** [JSON.parse(JSON.stringify(v))] is [v] for a value written as it is. *)
Lemma parse_stringify v :
  json_clean v →
  ∃ s, JSON.stringify v = Some s ∧ JSON.parse s = Parsed v.
Proof.
  intros Hv. exists (string_of_list_ascii (text_of v)). split.
  { unfold stringify. by rewrite serialize_clean. }
  unfold parse. rewrite list_ascii_of_string_of_list_ascii.
  pose proof (parse_value_text_of v Hv (S (length (text_of v))) []) as H.
  rewrite app_nil_r in H. rewrite H; [done|lia|done].
Qed.

(* ================================================================== *)
(** ** Properties of the LocalStorage functions *)
(* ================================================================== *)

Lemma of_value_inj v1 v2 : of_value v1 = of_value v2 → v1 = v2.
Proof. destruct v1, v2; simpl; congruence. Qed.

Lemma of_nullable_inj o1 o2 : of_nullable o1 = of_nullable o2 → o1 = o2.
Proof. destruct o1, o2; simpl; congruence. Qed.

Lemma task_properties_inj t1 t2 :
  task_properties t1 = task_properties t2 → t1 = t2.
Proof.
  destruct t1 as [i1 n1 c1 e1 p1 d1], t2 as [i2 n2 c2 e2 p2 d2].
  unfold task_properties. simpl. intros H.
  assert (Hc : of_value c1 = of_value c2) by congruence.
  assert (Hp : of_nullable p1 = of_nullable p2) by congruence.
  apply of_value_inj in Hc as ->. apply of_nullable_inj in Hp as ->.
  congruence.
Qed.

Lemma of_task_inj t1 t2 : of_task t1 = of_task t2 → t1 = t2.
Proof. unfold of_task. intros H. apply task_properties_inj. congruence. Qed.

Lemma of_completed_inj c1 c2 : of_completed c1 = of_completed c2 → c1 = c2.
Proof.
  destruct c1 as [t1 d1], c2 as [t2 d2]. unfold of_completed.
  cbn [CompletedTask.task CompletedTask.completedAt].
  intros H.
  assert (H' : task_properties t1 ++ [("completedAt"%string, JString d1)]
               = task_properties t2 ++ [("completedAt"%string, JString d2)])
    by congruence.
  apply app_inj_1 in H'; [|reflexivity].
  destruct H' as [H1 H2]. apply task_properties_inj in H1 as ->. congruence.
Qed.

Lemma map_inj {A B} (f : A → B) l1 l2 :
  (∀ x y, f x = f y → x = y) → map f l1 = map f l2 → l1 = l2.
Proof.
  intros Hf. revert l2. induction l1 as [|x l1 IH]; intros [|y l2]; simpl;
    try done.
  intros [= Hxy Hl]. f_equal; auto.
Qed.

(** Two states with the same value as a tree are the same state. *)
Lemma of_appState_inj st1 st2 : of_appState st1 = of_appState st2 → st1 = st2.
Proof.
  destruct st1 as [ts1 hs1 c1 d1], st2 as [ts2 hs2 c2 d2].
  unfold of_appState. simpl. intros H.
  assert (Ht : map of_task ts1 = map of_task ts2) by congruence.
  assert (Hh : map of_completed hs1 = map of_completed hs2) by congruence.
  assert (Hc : of_nullable c1 = of_nullable c2) by congruence.
  assert (Hd : of_nullable d1 = of_nullable d2) by congruence.
  apply (map_inj _ _ _ of_task_inj) in Ht as ->.
  apply (map_inj _ _ _ of_completed_inj) in Hh as ->.
  apply of_nullable_inj in Hc as ->. by apply of_nullable_inj in Hd as ->.
Qed.

Lemma NoDup_keys (ks : list string) : bool_decide (NoDup ks) = true → NoDup ks.
Proof. intros H. by apply bool_decide_eq_true in H. Qed.














(* ================================================================== *)
(** ** What a record saved by the engine reads back as *)
(* ================================================================== *)

Lemma distinct_keys_array l : distinct_keys (JArray l) ↔ Forall distinct_keys l.
Proof.
  simpl. induction l as [|x l IH]; [by split; constructor|].
  rewrite IH. split.
  - intros [? ?]. by constructor.
  - by inversion 1.
Qed.

Lemma distinct_keys_object o :
  distinct_keys (JObject o)
  ↔ NoDup (map fst o) ∧ Forall (λ kx, distinct_keys kx.2) o.
Proof.
  simpl. apply and_iff_compat_l.
  induction o as [|x l IH]; [by split; constructor|].
  rewrite IH. split.
  - intros [? ?]. by constructor.
  - by inversion 1.
Qed.

Lemma serialize_defined v : v ≠ JUndefined → serialize v = Some (text_of v).
Proof. unfold text_of. destruct v as [| |[]|[]|s|l|o]; simpl; done. Qed.

Lemma sanitize_object_keys o :
  map fst (omap (λ kx : string * jsval,
                   match kx.2 with
                   | JUndefined => None
                   | _ => Some (kx.1, sanitize kx.2)
                   end) o)
  `sublist_of` map fst o.
Proof.
  induction o as [|[k x] o IH]; [done|]. cbn [omap list_omap map fst snd].
  destruct x; cbn [map fst]; by constructor.
Qed.

Lemma text_of_object_any o :
  text_of (JObject o)
  = "{"%char ::
      join_comma (omap (λ kx : string * jsval,
                          (λ t, quote kx.1 ++ ":"%char :: t) <$> serialize kx.2) o)
      ++ ["}"%char].
Proof. done. Qed.

Lemma sanitize_members_text o :
  Forall (λ kx, text_of (sanitize kx.2) = text_of kx.2) o →
  map member_text
    (omap (λ kx : string * jsval,
             match kx.2 with
             | JUndefined => None
             | _ => Some (kx.1, sanitize kx.2)
             end) o)
  = omap (λ kx : string * jsval,
            (λ t, quote kx.1 ++ ":"%char :: t) <$> serialize kx.2) o.
Proof.
  induction 1 as [|[k x] o Hx _ IH]; [done|].
  cbn [omap list_omap fst snd] in *.
  assert (Hcase : x = JUndefined ∨ x ≠ JUndefined) by (destruct x; auto).
  destruct Hcase as [->|Hne]; [exact IH|].
  rewrite (serialize_defined x Hne). cbn [fmap option_fmap option_map].
  replace (match x with JUndefined => None | _ => Some (k, sanitize x) end)
    with (Some (k, sanitize x)) by (by destruct x).
  cbn [map]. rewrite IH. unfold member_text at 1. cbn [fst snd].
  by rewrite Hx.
Qed.

(** The value read back is written as it is, with the text of the value
    it comes from. *)
Lemma sanitize_spec v :
  distinct_keys v →
  json_clean (sanitize v) ∧ text_of (sanitize v) = text_of v.
Proof.
  induction v as [| |b|n|s|l IH|o IH] using jsval_ind'; intros Hv;
    try (by destruct n); try done.
  - apply distinct_keys_array in Hv.
    assert (H : Forall (λ x, json_clean (sanitize x)
                             ∧ text_of (sanitize x) = text_of x) l).
    { apply Forall_forall. intros x Hx. rewrite Forall_forall in IH, Hv. auto. }
    clear IH Hv. cbn [sanitize]. split.
    + apply json_clean_array, Forall_fmap. eapply Forall_impl; [exact H|].
      by intros x [? _].
    + rewrite !text_of_array. do 3 f_equal. rewrite map_map.
      induction H as [|x l [_ Hx] _ IHl]; [done|]. simpl. by rewrite Hx, IHl.
  - apply distinct_keys_object in Hv as [Hk Hv].
    assert (H : Forall (λ kx, json_clean (sanitize kx.2)
                              ∧ text_of (sanitize kx.2) = text_of kx.2) o).
    { apply Forall_forall. intros x Hx. rewrite Forall_forall in IH, Hv. auto. }
    clear IH Hv. cbn [sanitize].
    set (g := λ kx : string * jsval,
                match kx.2 with
                | JUndefined => None
                | _ => Some (kx.1, sanitize kx.2)
                end).
    assert (Hc : Forall (λ kx, json_clean kx.2) (omap g o)).
    { apply Forall_forall. intros [k y] ([k' x] & Hx & Hg)%list_elem_of_omap.
      rewrite Forall_forall in H. destruct (H _ Hx) as [Hcx _].
      unfold g in Hg. cbn [fst snd] in *.
      destruct x; try done; injection Hg as <- <-; done. }
    split.
    + apply json_clean_object. split; [|done].
      eapply sublist_NoDup; [exact Hk|]. apply sanitize_object_keys.
    + rewrite text_of_object by done. rewrite text_of_object_any.
      do 3 f_equal. apply sanitize_members_text.
      eapply Forall_impl; [exact H|]. by intros kx [_ ?].
Qed.

(** [JSON.parse(JSON.stringify(v))] for any value with a text. *)
Lemma parse_stringify_sanitize v :
  distinct_keys v → v ≠ JUndefined →
  ∃ s, JSON.stringify v = Some s
       ∧ JSON.stringify (sanitize v) = Some s
       ∧ JSON.parse s = Parsed (sanitize v).
Proof.
  intros Hv Hne. destruct (sanitize_spec v Hv) as [Hc Ht].
  destruct (parse_stringify _ Hc) as (s & Hs & Hp).
  exists s. split; [|done].
  unfold stringify in *. rewrite serialize_defined by done.
  rewrite serialize_clean, Ht in Hs by done. done.
Qed.

Lemma distinct_keys_of_value v : distinct_keys (of_value v).
Proof. by destruct v. Qed.

Lemma distinct_keys_of_nullable o : distinct_keys (of_nullable o).
Proof. by destruct o. Qed.

Lemma distinct_keys_task_properties t :
  Forall (λ kx, distinct_keys kx.2) (task_properties t).
Proof.
  unfold task_properties. repeat (apply Forall_cons_2; [simpl|]); try done.
  - apply distinct_keys_of_value.
  - apply distinct_keys_of_nullable.
Qed.

Lemma distinct_keys_of_task t : distinct_keys (of_task t).
Proof.
  apply distinct_keys_object. split.
  - apply NoDup_keys. reflexivity.
  - apply distinct_keys_task_properties.
Qed.

Lemma distinct_keys_of_completed c : distinct_keys (of_completed c).
Proof.
  apply distinct_keys_object. split.
  - rewrite map_app. apply NoDup_keys. reflexivity.
  - apply Forall_app. split; [apply distinct_keys_task_properties|].
    by repeat constructor.
Qed.

Lemma distinct_keys_of_appState st : distinct_keys (of_appState st).
Proof.
  apply distinct_keys_object. split.
  - apply NoDup_keys. reflexivity.
  - repeat (apply Forall_cons_2; [simpl|]); try done.
    + apply distinct_keys_array, Forall_fmap, Forall_forall.
      intros t _. apply distinct_keys_of_task.
    + apply distinct_keys_array, Forall_fmap, Forall_forall.
      intros c _. apply distinct_keys_of_completed.
    + apply distinct_keys_of_nullable.
    + apply distinct_keys_of_nullable.
Qed.

(** The id of a task is a string: it is read back as it was written. *)
Lemma sanitize_of_task_id t t' : of_task t' = sanitize (of_task t) → Task.id t' = Task.id t.
Proof.
  unfold of_task, task_properties. cbn [sanitize omap list_omap fst snd].
  intros H. congruence.
Qed.

Lemma sanitize_of_completed_id c c' :
  of_completed c' = sanitize (of_completed c) →
  Task.id (CompletedTask.task c') = Task.id (CompletedTask.task c).
Proof.
  unfold of_completed, task_properties. cbn [sanitize omap list_omap fst snd app].
  intros H. congruence.
Qed.

Lemma sanitize_map_ids {A} (f : A → jsval) (id : A → string) l l' :
  (∀ x x', f x' = sanitize (f x) → id x' = id x) →
  map f l' = map sanitize (map f l) → map id l' = map id l.
Proof.
  intros Hf. revert l'. induction l as [|x l IH]; intros [|x' l']; simpl;
    try done.
  intros H. injection H as Hx Hl. f_equal; auto.
Qed.

Lemma sanitize_of_appState_ids st st' :
  of_appState st' = sanitize (of_appState st) →
  task_ids st' = task_ids st ∧ history_ids st' = history_ids st.
Proof.
  unfold of_appState. cbn [sanitize omap list_omap fst snd].
  intros H.
  assert (Hn : ∀ o k, match of_nullable o with
                      | JUndefined => None
                      | _ => Some (k, sanitize (of_nullable o))
                      end = Some (k : string, sanitize (of_nullable o))).
  { by intros [[]|] k. }
  rewrite !Hn in H. clear Hn.
  assert (Ht : map of_task (tasks st') = map sanitize (map of_task (tasks st)))
    by congruence.
  assert (Hh : map of_completed (history st')
               = map sanitize (map of_completed (history st))) by congruence.
  split.
  - eapply sanitize_map_ids; [|exact Ht]. intros x x'. apply sanitize_of_task_id.
  - eapply sanitize_map_ids; [|exact Hh]. intros x x'.
    apply sanitize_of_completed_id.
Qed.

Lemma saved_text_not_empty st : saved_text st ≠ ""%string.
Proof. unfold saved_text, stringify. simpl. done. Qed.

(** A state loaded from the record of the current state has the ids of
    the current state, and the record is its record too. *)
Lemma loadFromStorage_current w st' :
  storage_current w →
  loadFromStorage w = Normal (of_appState st') →
  task_ids st' = task_ids (appState w)
  ∧ history_ids st' = history_ids (appState w)
  ∧ saved_text st' = saved_text (appState w).
Proof.
  assert (Hsame : Normal (of_appState (appState w)) = Normal (of_appState st') →
                  task_ids st' = task_ids (appState w)
                  ∧ history_ids st' = history_ids (appState w)
                  ∧ saved_text st' = saved_text (appState w)).
  { intros H. assert (st' = appState w) as ->; [|done].
    apply of_appState_inj. congruence. }
  unfold loadFromStorage. intros [Hs|Hs]; rewrite Hs; [done|].
  destruct (String.eqb_spec (saved_text (appState w)) "") as [He|_];
    [by apply saved_text_not_empty in He|]. cbn [negb].
  destruct (parse_stringify_sanitize (of_appState (appState w)))
    as (s & Hs1 & Hs2 & Hp); [apply distinct_keys_of_appState|done|].
  assert (Hsaved : saved_text (appState w) = s).
  { unfold saved_text. by rewrite Hs1. }
  rewrite Hsaved, Hp.
  intros H. assert (Heq : of_appState st' = sanitize (of_appState (appState w)))
    by congruence.
  destruct (sanitize_of_appState_ids _ _ Heq) as [Ht Hh].
  split; [done|]. split; [done|].
  unfold saved_text. by rewrite Heq, Hs2.
Qed.

(* ================================================================== *)
(** ** Properties of task management *)
(* ================================================================== *)

Lemma find_id_None id (ts : list Task.t) :
  list_find (λ t, Task.id t = id) ts = None ↔ ∀ t, t ∈ ts → Task.id t ≠ id.
Proof. rewrite list_find_None, Forall_forall. done. Qed.

Lemma find_id_Some id (ts : list Task.t) :
  (∃ t, t ∈ ts ∧ Task.id t = id) →
  ∃ i task, list_find (λ t, Task.id t = id) ts = Some (i, task)
            ∧ ts !! i = Some task ∧ Task.id task = id
            ∧ ∀ j t, ts !! j = Some t → (j < i)%nat → Task.id t ≠ id.
Proof.
  intros (t & Ht & Hid).
  destruct (list_find_elem_of (λ t, Task.id t = id) ts t) as [[i task] Hf];
    [done..|].
  exists i, task. split; [done|].
  pose proof (proj1 (list_find_Some _ _ _ _) Hf) as (H1 & H2 & H3).
  repeat split; [done..|]. intros j y Hj Hlt. by apply (H3 j y).
Qed.

Lemma filter_other_ids id (ts : list Task.t) :
  id ∉ map Task.id (filter (λ t, Task.id t ≠ id) ts).
Proof.
  intros (t & Hid & Ht)%list_elem_of_fmap.
  apply list_elem_of_filter in Ht as [Hne _]. done.
Qed.

Lemma filter_other_ids_None id (ts : list Task.t) :
  (∀ t, t ∈ ts → Task.id t ≠ id) → filter (λ t, Task.id t ≠ id) ts = ts.
Proof.
  induction ts as [|t ts IH]; intros H; [done|].
  rewrite filter_cons. destruct (decide (Task.id t ≠ id)) as [_|Hn].
  - f_equal. apply IH. intros t' Ht'. apply H. by right.
  - destruct Hn. apply H. by left.
Qed.

(** C2, counterexample. A name, a category outside the fixed set and an
    energy of 7: the validation of the specification rejects them, yet
    [addTask] returns [true] and stores the task. *)
Lemma addTask_accepts_out_of_domain :
  spec_rejects (VStr "x") (VStr "bogus") (VNum (Int 7))
  ∧ ¬ returns_false
        (addTask (VStr "x") (VStr "bogus") (VNum (Int 7)) VNull sample_clock empty_world)
  ∧ ∃ w', addTask (VStr "x") (VStr "bogus") (VNum (Int 7)) VNull sample_clock empty_world
          = Normal (true, w')
          ∧ length (tasks (appState w')) = 1%nat.
Proof.
  split; [|split].
  - right. left. simpl. unfold categories. intros H.
    repeat (apply elem_of_cons in H as [H|H]; [discriminate H|]).
    by apply elem_of_nil in H.
  - intros [w' H]. vm_compute in H. discriminate H.
  - eexists. split; [reflexivity|]. reflexivity.
Qed.

Lemma trim_empty : trim "" = ""%string.
Proof. reflexivity. Qed.

(** C2, as amended. [addTask] returns [false], leaving [appState] and the
    stored record as they are, whenever the name, the category or the energy
    is empty or absent (falsy); it returns [true] and appends the task
    whenever the name has a character left once trimmed and the category and
    the energy are present, whatever the category and the energy level. *)
Theorem addTask_validation (name category energy priority : value)
    (clock : Clock) (w : World) :
  (truthy name = false ∨ truthy category = false ∨ truthy energy = false →
   ∃ w', addTask name category energy priority clock w = Normal (false, w')
         ∧ appState w' = appState w ∧ localStorage w' = localStorage w)
  ∧ (∀ s, name = VStr s → trim s ≠ ""%string →
          truthy category = true → truthy energy = true →
     ∃ w' task, addTask name category energy priority clock w = Normal (true, w')
         ∧ tasks (appState w') = tasks (appState w) ++ [task]
         ∧ Task.name task = trim s ∧ Task.category task = category
         ∧ Task.energy task = parseInt energy).
Proof.
  split.
  - intros H. exists (alert required_fields_message w).
    split; [|done]. unfold addTask.
    destruct H as [-> | [-> | ->]]; simpl; by rewrite ?orb_true_r.
  - intros s -> Hs Hc He. unfold addTask. rewrite Hc, He. simpl.
    destruct (String.eqb_spec s "") as [->|_]; [by destruct Hs|]. simpl.
    eexists _, _. split; [reflexivity|]. simpl. done.
Qed.

(** The scenario of the specification: [addTask("", "cooking", 3, null)]
    returns [false] and leaves the tasks as they are. *)
Lemma addTask_validation_witness :
  (truthy (VStr "") = false ∨ truthy (VStr "cooking") = false
   ∨ truthy (VNum (Int 3)) = false)
  ∧ ∃ w', addTask (VStr "") (VStr "cooking") (VNum (Int 3)) VNull sample_clock sample_world
          = Normal (false, w')
          ∧ appState w' = appState sample_world
          ∧ localStorage w' = localStorage sample_world.
Proof.
  assert (H : truthy (VStr "") = false ∨ truthy (VStr "cooking") = false
              ∨ truthy (VNum (Int 3)) = false) by (by left).
  split; [exact H|].
  exact (proj1 (addTask_validation (VStr "") (VStr "cooking") (VNum (Int 3)) VNull
                  sample_clock sample_world) H).
Defined.

(** C8. [editTask] returns [false] when no task has the id. When one has,
    it returns [true] and puts in the place of the first such task the task
    with the updates laid over it: the fields that [updates] has, the others
    as they were; with updates of the name, the category, the energy and
    the priority, the id and the creation date are as they were. *)
Theorem editTask_spec (id : string) (updates : Updates.t) (w : World) :
  let st := appState w in
  ((∀ t, t ∈ tasks st → Task.id t ≠ id) → (editTask id updates w).1 = false)
  ∧ ((∃ t, t ∈ tasks st ∧ Task.id t = id) →
     Updates.id updates = None → Updates.createdAt updates = None →
     ∃ i task edited,
       tasks st !! i = Some task ∧ Task.id task = id
       ∧ (∀ j t, tasks st !! j = Some t → (j < i)%nat → Task.id t ≠ id)
       ∧ (editTask id updates w).1 = true
       ∧ tasks (appState (editTask id updates w).2) = <[i := edited]> (tasks st)
       ∧ history (appState (editTask id updates w).2) = history st
       ∧ Task.id edited = Task.id task
       ∧ Task.createdAt edited = Task.createdAt task
       ∧ Task.name edited = default (Task.name task) (Updates.name updates)
       ∧ Task.category edited = default (Task.category task) (Updates.category updates)
       ∧ Task.energy edited = default (Task.energy task) (Updates.energy updates)
       ∧ Task.priority edited = default (Task.priority task) (Updates.priority updates)).
Proof.
  intros st. split.
  - intros H. apply find_id_None in H. unfold editTask. fold st. by rewrite H.
  - intros H Hno_id Hno_date.
    apply find_id_Some in H as (i & task & Hf & Hi & Hid & Hfirst).
    exists i, task, (spread_updates task updates).
    unfold editTask. fold st. rewrite Hf. simpl.
    rewrite Hno_id, Hno_date. done.
Qed.

Lemma editTask_spec_witness :
  (∃ t, t ∈ tasks (appState sample_world) ∧ Task.id t = "18"%string)
  ∧ Updates.id sample_updates = None
  ∧ Updates.createdAt sample_updates = None
  ∧ ∃ i task edited,
      tasks (appState sample_world) !! i = Some task
      ∧ (editTask "18" sample_updates sample_world).1 = true
      ∧ tasks (appState (editTask "18" sample_updates sample_world).2)
        = <[i := edited]> (tasks (appState sample_world))
      ∧ Task.id edited = Task.id task
      ∧ Task.createdAt edited = Task.createdAt task.
Proof.
  assert (H : ∃ t, t ∈ tasks (appState sample_world) ∧ Task.id t = "18"%string).
  { exists (sample_task "18" 1 (Some 1)). split; [|reflexivity].
    simpl. apply elem_of_cons. right. apply elem_of_cons. by left. }
  split; [exact H|]. split; [reflexivity|]. split; [reflexivity|].
  destruct (proj2 (editTask_spec "18" sample_updates sample_world) H
              eq_refl eq_refl)
    as (i & task & edited & H1 & _ & _ & H2 & H3 & _ & H4 & H5 & _).
  exists i, task, edited. auto.
Defined.

(** An [updates] object with an [id] of its own gives the task that id. *)
Example editTask_spreads_id :
  map Task.id
    (tasks (appState
       (editTask "18"
          {| Updates.id := Some "17"%string; Updates.name := None;
             Updates.category := None; Updates.energy := None;
             Updates.priority := None; Updates.createdAt := None |}
          sample_world).2))
  = ["17"; "17"; "19"]%string.
Proof. reflexivity. Qed.

(** C10. When [editTask] returns [false] the world is the one before the
    call: [appState] is untouched and nothing is written to LocalStorage. *)
Theorem editTask_failure_atomic (id : string) (updates : Updates.t) (w : World) :
  (editTask id updates w).1 = false → (editTask id updates w).2 = w.
Proof.
  unfold editTask.
  by destruct (list_find _ _) as [[i task]|].
Qed.

Lemma editTask_failure_atomic_witness :
  (editTask "nonexistent" sample_updates sample_world).1 = false
  ∧ (editTask "nonexistent" sample_updates sample_world).2 = sample_world.
Proof.
  assert (H : (editTask "nonexistent" sample_updates sample_world).1 = false)
    by reflexivity.
  split; [exact H|].
  exact (editTask_failure_atomic "nonexistent" sample_updates sample_world H).
Defined.



(** The scenario of the specification: completing an id no task has. *)
Example completeTask_nonexistent :
  completeTask "nonexistent" sample_clock sample_world = sample_world.
Proof. reflexivity. Qed.

(* ================================================================== *)
(** ** The ids of tasks and history *)
(* ================================================================== *)

Lemma saveToStorage_current w : storage_current (saveToStorage w).
Proof. by right. Qed.

Lemma ids_unique_add st task :
  ids_unique st →
  Task.id task ∉ task_ids st ++ history_ids st →
  ids_unique (with_tasks st (tasks st ++ [task])).
Proof.
  unfold ids_unique, task_ids, history_ids. simpl. intros Hu Hfresh.
  rewrite map_app, <- app_assoc. simpl. rewrite <- Permutation_middle.
  by apply NoDup_cons.
Qed.

Lemma task_ids_edit st i task updates :
  Updates.id updates = None →
  tasks st !! i = Some task →
  task_ids (with_tasks st (<[i := spread_updates task updates]> (tasks st)))
  = task_ids st.
Proof.
  intros Hno_id Hi. unfold task_ids. simpl.
  change (map Task.id ?l) with (Task.id <$> l).
  rewrite list_fmap_insert. apply list_insert_id.
  rewrite list_lookup_fmap, Hi. simpl. by rewrite Hno_id.
Qed.

Lemma ids_unique_filter id (ts : list Task.t) (hids : list string) :
  NoDup (map Task.id ts ++ hids) →
  NoDup (map Task.id (filter (λ t, Task.id t ≠ id) ts) ++ hids).
Proof.
  intros Hu. eapply sublist_NoDup; [exact Hu|].
  apply sublist_app; [|done].
  apply (fmap_sublist Task.id), sublist_filter.
Qed.

Lemma ids_unique_complete id (ts : list Task.t) (hids : list string) :
  id ∈ map Task.id ts →
  NoDup (map Task.id ts ++ hids) →
  NoDup (map Task.id (filter (λ t, Task.id t ≠ id) ts) ++ id :: hids).
Proof.
  intros Hin Hu. rewrite <- Permutation_middle. apply NoDup_cons. split.
  - intros [H|H]%elem_of_app.
    + by apply filter_other_ids in H.
    + apply NoDup_app in Hu as (_ & Hdisj & _). by apply (Hdisj id).
  - by apply ids_unique_filter.
Qed.

(** C4, counterexample. Two calls of [addTask] within one millisecond give
    two tasks the same id. *)
Lemma addTask_same_millisecond_duplicates_id :
  ∃ w, reachable any_clock w ∧ ¬ ids_unique (appState w).
Proof.
  eexists. split.
  - eapply (reach_addTask any_clock (VStr "iron") (VStr "cleaning") (VNum (Int 2)) VNull
              sample_clock); [|exact I|reflexivity].
    eapply (reach_addTask any_clock (VStr "cook") (VStr "cooking") (VNum (Int 3)) VNull
              sample_clock); [|exact I|reflexivity].
    apply reach_initial.
  - unfold ids_unique. simpl. intros [Hnotin _]%NoDup_cons.
    apply Hnotin. by left.
Qed.

(** C4, as amended. In every state the operations reach from the empty
    state, [addTask] being run only at a reading of the clock whose id is
    not in use, an id occurs at most once in [tasks] and [history] taken
    together, and LocalStorage holds no record or the record of the state:
    [addTask], [editTask] with updates that leave the id alone,
    [deleteTask], [completeTask], the energy and rating handlers and
    [loadFromStorage] all keep it so. *)
Theorem ids_unique_reachable (w : World) :
  reachable fresh_id w → ids_unique (appState w) ∧ storage_current w.
Proof.
  induction 1 as [| name category energy priority clock w b w' _ [IHu IHs] Hfresh Hadd
                  | id updates w _ [IHu IHs] Hno_id
                  | id w _ [IHu IHs]
                  | id clock w _ [IHu IHs]
                  | energy w _ [IHu IHs]
                  | rating w _ [IHu IHs]
                  | w st' _ [IHu IHs] Hload].
  - split; [constructor|by left].
  - unfold addTask in Hadd. destruct (_ || _).
    { injection Hadd as <- <-. done. }
    destruct name; try discriminate Hadd. injection Hadd as <- <-.
    split; [|apply saveToStorage_current].
    by apply ids_unique_add.
  - unfold editTask.
    destruct (list_find _ _) as [[i task]|] eqn:Hf; [|done].
    split; [|apply saveToStorage_current].
    pose proof (proj1 (list_find_Some _ _ _ _) Hf) as (Hi & _ & _).
    unfold ids_unique. cbn [snd saveToStorage appState with_appState].
    rewrite task_ids_edit by done. exact IHu.
  - split; [|apply saveToStorage_current]. by apply ids_unique_filter.
  - unfold completeTask.
    destruct (list_find _ _) as [[i task]|] eqn:Hf; [|done].
    split; [|apply saveToStorage_current].
    pose proof (proj1 (list_find_Some _ _ _ _) Hf) as (Hi & Hid & _).
    unfold ids_unique, task_ids, history_ids. simpl. rewrite Hid.
    apply ids_unique_complete; [|done].
    apply list_elem_of_fmap. exists task. split; [done|].
    by eapply list_elem_of_lookup_2.
  - split; [done|apply saveToStorage_current].
  - split; [done|apply saveToStorage_current].
  - destruct (loadFromStorage_current w st' IHs Hload) as (Ht & Hh & Hsaved).
    split.
    + unfold ids_unique. simpl. by rewrite Ht, Hh.
    + destruct IHs as [Hs|Hs]; [by left|right]. simpl. by rewrite Hsaved.
Qed.

Lemma ids_unique_reachable_witness :
  ∃ w, addTask (VStr "cook") (VStr "cooking") (VNum (Int 3)) VNull sample_clock
         empty_world = Normal (true, w)
       ∧ reachable fresh_id w ∧ ids_unique (appState w).
Proof.
  eexists. split; [reflexivity|].
  assert (H : reachable fresh_id
    (saveToStorage (with_appState empty_world
       (with_tasks initial_appState
          [ {| Task.id := toString (Int (Date_now sample_clock));
               Task.name := trim "cook";
               Task.category := VStr "cooking";
               Task.energy := parseInt (VNum (Int 3));
               Task.priority := None;
               Task.createdAt := Date_toISOString sample_clock |} ])))).
  { eapply (reach_addTask fresh_id (VStr "cook") (VStr "cooking") (VNum (Int 3)) VNull
              sample_clock empty_world); [apply reach_initial| |reflexivity].
    unfold fresh_id. simpl. apply not_elem_of_nil. }
  split; [exact H|]. exact (proj1 (ids_unique_reachable _ H)).
Defined.

(** Distinct readings of the clock give distinct ids. *)
Lemma toString_Int_inj t1 t2 : toString (Int t1) = toString (Int t2) → t1 = t2.
Proof.
  unfold toString. intros H.
  apply (f_equal list_ascii_of_string) in H.
  rewrite !list_ascii_of_string_of_list_ascii in H. simpl in H.
  pose proof (number_literal_Z_to_text t1 [] I) as H1.
  pose proof (number_literal_Z_to_text t2 [] I) as H2.
  rewrite H in H1. congruence.
Qed.

Lemma reachable_impl (fresh fresh' : Clock → World → Prop) w :
  (∀ clock w, fresh clock w → fresh' clock w) →
  reachable fresh w → reachable fresh' w.
Proof.
  intros Himpl. induction 1; try (by constructor).
  eapply reach_addTask; eauto.
Qed.

(** A clock that has moved on by a millisecond or more since the tasks of
    the state were created gives [addTask] an id that is not in use: the
    states reached under such a clock are among those of the theorem
    above. *)
Lemma later_clock_fresh_id clock w : later_clock clock w → fresh_id clock w.
Proof.
  intros Hlater Hin. destruct (Hlater _ Hin) as (t & Ht & Hlt).
  apply toString_Int_inj in Ht. lia.
Qed.

Lemma reachable_later_clock w :
  reachable later_clock w → reachable fresh_id w.
Proof. apply reachable_impl, later_clock_fresh_id. Qed.

(* ================================================================== *)
(** ** Properties of the ordering algorithm *)
(* ================================================================== *)

Section Ordering.
Context (currentEnergy : Z).

Local Abbreviation ce := (Some (Int currentEnergy)).

Lemma with_score_task o t : TaskWithScore.task (with_score o t) = t.
Proof. done. Qed.

Lemma map_task_with_score o ts :
  map TaskWithScore.task (map (with_score o) ts) = ts.
Proof. rewrite map_map. apply map_id. Qed.

Lemma with_score_scored t : scorable t → scored (with_score ce t).
Proof.
  unfold scorable, scored, with_score, priority_or_4. simpl.
  destruct (Task.energy t); [|done].
  destruct (Task.priority t) as [[p|]|]; simpl; try done.
  by destruct (p =? 0).
Qed.

Lemma with_score_key t :
  scorable t → score_key (with_score ce t) = spec_key currentEnergy t.
Proof.
  unfold scorable, score_key, spec_key, spec_energyDiff, spec_priorityScore,
    with_score, priority_or_4. simpl.
  destruct (Task.energy t); [|done].
  destruct (Task.priority t) as [[p|]|]; simpl; try done.
  intros Hp. by destruct (Z.eqb_spec p 0).
Qed.

Lemma with_score_fields t :
  scorable t →
  TaskWithScore.energyDiff (with_score ce t) = Int (spec_energyDiff currentEnergy t)
  ∧ TaskWithScore.priorityScore (with_score ce t) = Int (spec_priorityScore t).
Proof.
  unfold scorable, spec_energyDiff, spec_priorityScore, with_score,
    priority_or_4. simpl.
  destruct (Task.energy t); [|done].
  destruct (Task.priority t) as [[p|]|]; simpl; try done.
  intros Hp. by destruct (Z.eqb_spec p 0).
Qed.

(** On scored elements the comparison function is the ascending order of
    the keys. *)
Lemma compare_scores_key_le a b :
  scored a → scored b →
  sorts_before compare_scores a b ↔ key_le (score_key a) (score_key b).
Proof.
  unfold scored, sorts_before, SortCompare, compare_scores, score_key, key_le.
  destruct (TaskWithScore.energyDiff a) as [ea|],
    (TaskWithScore.priorityScore a) as [pa|]; try done.
  destruct (TaskWithScore.energyDiff b) as [eb|],
    (TaskWithScore.priorityScore b) as [pb|]; try done.
  intros _ _. simpl. destruct (Z.eqb_spec ea eb); simpl; lia.
Qed.

Lemma key_le_total k1 k2 : key_le k1 k2 ∨ key_le k2 k1.
Proof. unfold key_le. lia. Qed.

Lemma key_le_trans k1 k2 k3 : key_le k1 k2 → key_le k2 k3 → key_le k1 k3.
Proof. unfold key_le. lia. Qed.

Lemma key_le_antisym k1 k2 : key_le k1 k2 → key_le k2 k1 → k1 = k2.
Proof. unfold key_le. destruct k1, k2. simpl. intros. f_equal; lia. Qed.

Lemma key_le_refl k : key_le k k.
Proof. unfold key_le. lia. Qed.

Lemma sort_scores_StronglySorted l :
  Forall scored l →
  StronglySorted (λ a b, key_le (score_key a) (score_key b))
    (sort compare_scores l).
Proof.
  intros Hl.
  assert (Hs : StronglySorted (sorts_before compare_scores) (sort compare_scores l)).
  { apply (sort_StronglySorted compare_scores scored); [| |done].
    - intros x y Hx Hy. rewrite !compare_scores_key_le by done.
      apply key_le_total.
    - intros x y z Hx Hy Hz. rewrite !compare_scores_key_le by done.
      apply key_le_trans. }
  assert (Hok : Forall scored (sort compare_scores l)).
  { by rewrite sort_Permutation. }
  rewrite Forall_forall in Hok.
  rewrite <- (map_id (sort compare_scores l)).
  eapply StronglySorted_fmap; [|exact Hs].
  intros x y Hx Hy. simpl. apply compare_scores_key_le; auto.
Qed.

Lemma sort_scores_stable (k : Z * Z) l :
  Forall scored l →
  filter (λ a, score_key a = k) (sort compare_scores l)
  = filter (λ a, score_key a = k) l.
Proof.
  intros Hl. apply sort_stable.
  rewrite Forall_forall in Hl.
  intros x y Hx Hy Hkx Hky. apply compare_scores_key_le; auto.
  rewrite Hkx, Hky. apply key_le_refl.
Qed.
End Ordering.

Lemma orderTasks_unfold o w :
  nullable_truthy o = true →
  orderTasks o w = (sort compare_scores (map (with_score o) (tasks (appState w))), w).
Proof.
  intros Ho. unfold orderTasks. rewrite Ho. simpl.
  by destruct (tasks (appState w)).
Qed.

(** C1. With the current energy set to a level from 1 to 5, [orderTasks]
    returns the tasks (a permutation of the list, each carrying the
    distance of its energy from the current energy and its priority, 4 when
    it has none) in ascending order of the pair (energyDiff, priorityScore),
    and tasks of equal keys keep the order in which the list has them. *)
Theorem orderTasks_sorted_stable (currentEnergy : Z) (w : World) :
  1 ≤ currentEnergy ≤ 5 →
  Forall scorable (tasks (appState w)) →
  let ordered := (orderTasks (Some (Int currentEnergy)) w).1 in
  let key := spec_key currentEnergy in
  map TaskWithScore.task ordered ≡ₚ tasks (appState w)
  ∧ Forall (λ a, TaskWithScore.energyDiff a
                   = Int (spec_energyDiff currentEnergy (TaskWithScore.task a))
                 ∧ TaskWithScore.priorityScore a
                   = Int (spec_priorityScore (TaskWithScore.task a))) ordered
  ∧ StronglySorted (λ t1 t2, key_le (key t1) (key t2))
      (map TaskWithScore.task ordered)
  ∧ ∀ k, filter (λ t, key t = k) (map TaskWithScore.task ordered)
         = filter (λ t, key t = k) (tasks (appState w)).
Proof.
  intros Hce Hts ordered key. subst ordered key.
  rewrite orderTasks_unfold by (simpl; destruct (Z.eqb_spec currentEnergy 0); [lia|done]).
  simpl. set (ts := tasks (appState w)) in *.
  assert (Hsc : Forall scored (map (with_score (Some (Int currentEnergy))) ts)).
  { apply Forall_fmap. eapply Forall_impl; [exact Hts|].
    intros t. apply with_score_scored. }
  assert (Hin : ∀ a,
    a ∈ sort compare_scores (map (with_score (Some (Int currentEnergy))) ts) →
    ∃ t, a = with_score (Some (Int currentEnergy)) t ∧ scorable t).
  { intros a Ha. rewrite sort_Permutation in Ha.
    apply list_elem_of_fmap in Ha as (t & -> & Ht).
    rewrite Forall_forall in Hts. eauto. }
  split; [|split; [|split]].
  - rewrite sort_Permutation. by rewrite map_task_with_score.
  - apply Forall_forall. intros a (t & -> & Ht)%Hin.
    by apply with_score_fields.
  - eapply StronglySorted_fmap; [|by apply sort_scores_StronglySorted].
    intros a b (ta & -> & Hta)%Hin (tb & -> & Htb)%Hin.
    by rewrite !with_score_key, !with_score_task.
  - intros k.
    transitivity (map TaskWithScore.task
      (filter (λ a, score_key a = k)
         (sort compare_scores (map (with_score (Some (Int currentEnergy))) ts)))).
    { generalize Hin.
      generalize (sort compare_scores
                    (map (with_score (Some (Int currentEnergy))) ts)).
      induction l as [|a l IH]; intros Hl; [done|].
      simpl. rewrite !filter_cons.
      destruct (Hl a) as (t & -> & Ht); [left|].
      rewrite with_score_key by done. simpl.
      rewrite IH by (intros b Hb; apply Hl; by right).
      by destruct (decide (spec_key currentEnergy t = k)). }
    rewrite sort_scores_stable by done.
    clear Hin Hsc. induction Hts as [|t l Ht Hl IH]; [done|].
    simpl. rewrite !filter_cons, with_score_key by done.
    destruct (decide (spec_key currentEnergy t = k)); simpl; by rewrite IH.
Qed.

Lemma orderTasks_sorted_stable_witness :
  1 ≤ 3 ≤ 5
  ∧ Forall scorable (tasks (appState sample_world))
  ∧ map TaskWithScore.task (orderTasks (Some (Int 3)) sample_world).1
    ≡ₚ tasks (appState sample_world)
  ∧ StronglySorted (λ t1 t2, key_le (spec_key 3 t1) (spec_key 3 t2))
      (map TaskWithScore.task (orderTasks (Some (Int 3)) sample_world).1).
Proof.
  assert (H1 : 1 ≤ 3 ≤ 5) by lia.
  assert (H2 : Forall scorable (tasks (appState sample_world))).
  { simpl. repeat (apply Forall_cons_2; [by vm_compute|]). apply Forall_nil_2. }
  pose proof (orderTasks_sorted_stable 3 sample_world H1 H2) as (Hp & _ & Hs & _).
  auto.
Defined.

(** The scenario of the specification: a task at distance 0 comes before a
    task at distance 2 whatever their priorities, and of two tasks at the
    same distance the one with no priority comes last. *)
Example orderTasks_sample :
  map (λ a, Task.id (TaskWithScore.task a))
    (orderTasks (Some (Int 3)) sample_world).1
  = ["17"; "19"; "18"]%string.
Proof. reflexivity. Qed.

(** The two ordering scenarios of the specification. *)
Example orderTasks_distance_before_priority :
  map (λ a, Task.id (TaskWithScore.task a))
    (orderTasks (Some (Int 3))
       {| appState := with_tasks initial_appState
                        [sample_task "a" 3 (Some 2); sample_task "b" 1 (Some 1)];
          localStorage := None; alerts := [] |}).1
  = ["a"; "b"]%string.
Proof. reflexivity. Qed.

Example orderTasks_no_priority_last :
  map (λ a, Task.id (TaskWithScore.task a))
    (orderTasks (Some (Int 2))
       {| appState := with_tasks initial_appState
                        [sample_task "a" 2 None; sample_task "b" 2 (Some 3)];
          localStorage := None; alerts := [] |}).1
  = ["b"; "a"]%string.
Proof. reflexivity. Qed.

(** C7. [orderTasks] returns the empty array when the current energy is not
    set ([null]) and when there is no task, whatever the tasks are. *)
Theorem orderTasks_empty_guard (currentEnergy : option num) (w : World) :
  currentEnergy = None ∨ tasks (appState w) = [] →
  (orderTasks currentEnergy w).1 = [].
Proof.
  unfold orderTasks. intros [-> | ->]; [done|].
  by rewrite orb_true_r.
Qed.

Lemma orderTasks_empty_guard_witness :
  (@None num = None ∨ tasks (appState sample_world) = [])
  ∧ (orderTasks None sample_world).1 = [].
Proof.
  split; [by left|].
  apply (orderTasks_empty_guard None sample_world). by left.
Defined.



(** The three properties above leave no choice: two lists in ascending
    order of the keys that hold the elements of each key in the same order
    are equal. Whatever stable sort the runtime uses, [orderTasks] returns
    the tasks in this order. *)
Lemma sorted_stable_unique {A} (key : A → Z * Z) (l1 l2 : list A) :
  StronglySorted (λ x y, key_le (key x) (key y)) l1 →
  StronglySorted (λ x y, key_le (key x) (key y)) l2 →
  (∀ k, filter (λ x, key x = k) l1 = filter (λ x, key x = k) l2) →
  l1 = l2.
Proof.
  intros Hs1. revert l2. induction Hs1 as [|x l1 Hs1 IH Hx]; intros l2 Hs2 Hf.
  - destruct l2 as [|y l2]; [done|].
    specialize (Hf (key y)). rewrite filter_cons, decide_True in Hf by done.
    discriminate Hf.
  - destruct Hs2 as [|y l2 Hs2 Hy].
    { specialize (Hf (key x)). rewrite filter_cons, decide_True in Hf by done.
      discriminate Hf. }
    assert (Hxy : key x = key y).
    { apply key_le_antisym.
      - assert (Hin : y ∈ filter (λ z, key z = key y) (x :: l1)).
        { rewrite Hf, filter_cons, decide_True by done. by left. }
        apply list_elem_of_filter in Hin as [_ Hin].
        apply elem_of_cons in Hin as [->|Hin]; [apply key_le_refl|].
        rewrite Forall_forall in Hx. auto.
      - assert (Hin : x ∈ filter (λ z, key z = key x) (y :: l2)).
        { rewrite <- Hf, filter_cons, decide_True by done. by left. }
        apply list_elem_of_filter in Hin as [_ Hin].
        apply elem_of_cons in Hin as [->|Hin]; [apply key_le_refl|].
        rewrite Forall_forall in Hy. auto. }
    assert (x = y) as <-.
    { specialize (Hf (key x)). rewrite !filter_cons in Hf.
      rewrite decide_True in Hf by done. rewrite decide_True in Hf by done.
      congruence. }
    f_equal. apply IH; [done|]. intros k. specialize (Hf k).
    rewrite !filter_cons in Hf. destruct (decide (key x = k)); congruence.
Qed.

(* ================================================================== *)
(** ** Numbers read from the fields of a form *)
(* ================================================================== *)

Lemma trimStart_not_white c s : is_white c = false → trimStart (c :: s) = c :: s.
Proof. intros H. simpl. by rewrite H. Qed.

Lemma is_digit_not_white c :
  is_digit c = true ∨ c = "-"%char →
  is_white c = false ∧ c ≠ "+"%char.
Proof.
  intros [H | ->]; [|done].
  destruct c as [[] [] [] [] [] [] [] []]; try discriminate H; done.
Qed.

Lemma strip_sign_digit c s :
  is_digit c = true → strip_sign (c :: s) = (false, c :: s).
Proof.
  intros H. destruct c as [[] [] [] [] [] [] [] []]; try discriminate H; done.
Qed.

Lemma strip_radix_nonzero c s :
  c ≠ "0"%char → strip_radix (c :: s) = (10%N, c :: s).
Proof.
  intros H. destruct c as [[] [] [] [] [] [] [] []]; try done.
Qed.

Lemma parseInt_text_digits n negative :
  (let '(radix, s) := strip_radix (digits n) in
   match read_digits radix None s with
   | Some m => Int (if negative : bool then - Z.of_N m else Z.of_N m)
   | None => NaN
   end)
  = Int (if negative then - Z.of_N n else Z.of_N n).
Proof.
  destruct (N.eq_dec n 0%N) as [->|Hn]; [by destruct negative|].
  destruct (digits_decimal n) as [Hd (c & ds' & Heq & Hc) Hr].
  specialize (Hr None []). rewrite app_nil_r in Hr.
  rewrite Heq in Hr |- *. rewrite strip_radix_nonzero by (apply Hc; lia).
  rewrite Hr. cbn [read_digits].
  replace (n + 10 ^ N.of_nat (length (c :: ds')) * default 0 None)%N with n;
    [done|]. cbn [default from_option]. lia.
Qed.

(** [parseInt] reads an integer back from its decimal text. *)
Lemma parseInt_text_Z_to_text z : parseInt_text (Z_to_text z) = Int z.
Proof.
  unfold parseInt_text, Z_to_text. destruct (Z.ltb_spec z 0) as [Hz|Hz].
  - rewrite trimStart_not_white by done. cbn [strip_sign].
    rewrite (parseInt_text_digits (Z.abs_N z) true). f_equal. lia.
  - destruct (digits_decimal (Z.abs_N z)) as [Hd (c & ds' & Heq & _) _].
    pose proof (parseInt_text_digits (Z.abs_N z) false) as H.
    rewrite Heq in Hd, H |- *. apply Forall_cons in Hd as [Hc _].
    destruct (is_digit_not_white c (or_introl Hc)) as [Hw _].
    rewrite trimStart_not_white, strip_sign_digit by done.
    rewrite H. f_equal. lia.
Qed.

Lemma parseInt_toString n : parseInt (VStr (toString n)) = n.
Proof.
  unfold parseInt, toString, ToString.
  rewrite list_ascii_of_string_of_list_ascii.
  destruct n as [z|]; [apply parseInt_text_Z_to_text|reflexivity].
Qed.


Lemma toString_not_empty n : toString n ≠ ""%string.
Proof.
  unfold toString. destruct n as [z|]; [|done]. simpl.
  destruct (Z_to_text_head z) as (c & t & -> & _). done.
Qed.

Lemma truthy_toString n : truthy (VStr (toString n)) = true.
Proof.
  simpl. destruct (String.eqb_spec (toString n) "") as [H|_]; [|done].
  by apply toString_not_empty in H.
Qed.

(* ================================================================== *)
(** ** Saving and loading any state *)
(* ================================================================== *)












(* ================================================================== *)
(** ** Further properties of task management *)
(* ================================================================== *)

Lemma saveToStorage_eq w1 w2 :
  appState w1 = appState w2 → alerts w1 = alerts w2 →
  saveToStorage w1 = saveToStorage w2.
Proof. unfold saveToStorage. by intros -> ->. Qed.

Lemma saveToStorage_twice w : saveToStorage (saveToStorage w) = saveToStorage w.
Proof. by apply saveToStorage_eq. Qed.

(** X4. [deleteTask] removes every task with the id and no other, keeps the
    order of the tasks left, leaves the history, the current energy and the
    rating alone, and writes the record of the new state, also when no task
    has the id and the state is the same. *)
Theorem deleteTask_spec (id : string) (w : World) :
  let st := appState w in
  let st' := appState (deleteTask id w) in
  (∀ t, t ∈ tasks st' ↔ t ∈ tasks st ∧ Task.id t ≠ id)
  ∧ tasks st' `sublist_of` tasks st
  ∧ history st' = history st
  ∧ currentEnergy st' = currentEnergy st
  ∧ dailyRating st' = dailyRating st
  ∧ localStorage (deleteTask id w) = Some (saved_text st')
  ∧ ((∀ t, t ∈ tasks st → Task.id t ≠ id) → st' = st).
Proof.
  intros st st'. subst st st'. unfold deleteTask. simpl.
  split; [|split; [|repeat split]].
  - intros t. rewrite list_elem_of_filter. tauto.
  - apply sublist_filter.
  - intros H. rewrite filter_other_ids_None by done. by destruct (appState w).
Qed.

Lemma deleteTask_spec_witness :
  (∀ t, t ∈ tasks (appState sample_world) → Task.id t ≠ "nonexistent"%string)
  ∧ appState (deleteTask "nonexistent" sample_world) = appState sample_world.
Proof.
  assert (H : ∀ t, t ∈ tasks (appState sample_world) →
                   Task.id t ≠ "nonexistent"%string).
  { intros t Ht. simpl in Ht.
    repeat (apply elem_of_cons in Ht as [->|Ht]; [discriminate|]).
    by apply elem_of_nil in Ht. }
  split; [exact H|].
  destruct (deleteTask_spec "nonexistent" sample_world)
    as (_ & _ & _ & _ & _ & _ & Hsame).
  exact (Hsame H).
Defined.

(** X5. Deleting an id twice is deleting it once, and two deletions can be
    made in either order: the world is the same, the record included. *)
Theorem deleteTask_idempotent_commute (id id' : string) (w : World) :
  deleteTask id (deleteTask id w) = deleteTask id w
  ∧ deleteTask id (deleteTask id' w) = deleteTask id' (deleteTask id w).
Proof.
  unfold deleteTask. split; apply saveToStorage_eq; simpl; try done;
    unfold with_tasks; simpl; f_equal.
  - by apply list_filter_filter_l.
  - rewrite !list_filter_filter. apply list_filter_iff. tauto.
Qed.

(** X6. Once [completeTask] has run for an id, the id is out of reach of
    the task operations: completing it again changes nothing, [editTask]
    returns [false] and changes nothing, [deleteTask] finds nothing to
    remove. The entry in the history stays. *)
Theorem completed_id_out_of_reach (id : string) (clock clock' : Clock)
    (updates : Updates.t) (w : World) :
  let w1 := completeTask id clock w in
  completeTask id clock' w1 = w1
  ∧ editTask id updates w1 = (false, w1)
  ∧ appState (deleteTask id w1) = appState w1.
Proof.
  intros w1.
  assert (Hgone : ∀ t, t ∈ tasks (appState w1) → Task.id t ≠ id).
  { subst w1. unfold completeTask.
    destruct (list_find _ _) as [[i task]|] eqn:Hf; simpl.
    - intros t [Hne _]%list_elem_of_filter. done.
    - by apply find_id_None. }
  pose proof (proj2 (find_id_None id _) Hgone) as Hnone.
  split; [|split].
  - unfold completeTask. by rewrite Hnone.
  - unfold editTask. by rewrite Hnone.
  - unfold deleteTask. simpl. rewrite filter_other_ids_None by done.
    by destruct (appState w1).
Qed.



(** X9. The energy and the priority the form holds as decimal text are
    stored as the numbers they denote, whatever safe integers these are:
    no scale is checked, and an empty priority is stored as [null]. *)
Theorem handleTaskSubmit_numbers (name category : string) (energy : Z)
    (priority : option Z) (clock : Clock) (w : World) :
  name ≠ ""%string → category ≠ ""%string →
  safe_integer energy → from_option safe_integer True priority →
  ∃ w' task,
    handleTaskSubmit name category (toString (Int energy))
      (from_option (λ p, toString (Int p)) "" priority) clock w
    = Normal (true, w')
    ∧ tasks (appState w') = tasks (appState w) ++ [task]
    ∧ Task.energy task = Int energy
    ∧ Task.priority task = Int <$> priority.
Proof.
  intros Hn Hc _ _. unfold handleTaskSubmit, addTask.
  rewrite truthy_toString. simpl.
  destruct (String.eqb_spec name "") as [|_]; [done|].
  destruct (String.eqb_spec category "") as [|_]; [done|]. simpl.
  eexists _, _. split; [reflexivity|]. simpl. split; [done|].
  split; [apply parseInt_toString|].
  destruct priority as [p|]; simpl; [|done].
  pose proof (truthy_toString (Int p)) as Ht. simpl in Ht. rewrite Ht.
  by rewrite parseInt_toString.
Qed.

Lemma handleTaskSubmit_numbers_witness :
  "laundry"%string ≠ ""%string ∧ "cleaning"%string ≠ ""%string
  ∧ safe_integer 0 ∧ from_option safe_integer True (Some 9)
  ∧ ∃ w' task,
      handleTaskSubmit "laundry" "cleaning" (toString (Int 0))
        (from_option (λ p, toString (Int p)) "" (Some 9)) sample_clock empty_world
      = Normal (true, w')
      ∧ tasks (appState w') = tasks (appState empty_world) ++ [task]
      ∧ Task.energy task = Int 0
      ∧ Task.priority task = Int <$> Some 9.
Proof.
  assert (H1 : "laundry"%string ≠ ""%string) by discriminate.
  assert (H2 : "cleaning"%string ≠ ""%string) by discriminate.
  assert (H3 : safe_integer 0) by (unfold safe_integer; lia).
  assert (H4 : from_option safe_integer True (Some 9))
    by (unfold safe_integer; simpl; lia).
  split; [exact H1|]. split; [exact H2|]. split; [exact H3|].
  split; [exact H4|].
  exact (handleTaskSubmit_numbers "laundry" "cleaning" 0 (Some 9)
           sample_clock empty_world H1 H2 H3 H4).
Defined.



(** X11. Deleting the task [addTask] has just added gives back the state
    from before, provided no task had the id taken from the clock (with
    such a task, that task is deleted along). *)
Theorem addTask_deleteTask (name category energy priority : value)
    (clock : Clock) (w w' : World) :
  addTask name category energy priority clock w = Normal (true, w') →
  toString (Int (Date_now clock)) ∉ task_ids (appState w) →
  appState (deleteTask (toString (Int (Date_now clock))) w') = appState w.
Proof.
  unfold addTask. destruct (_ || _); [discriminate|].
  destruct name; try discriminate. intros [= <-] Hfresh.
  unfold deleteTask. simpl. rewrite filter_app, filter_cons, filter_nil.
  simpl. rewrite decide_False by (intros H; by apply H).
  rewrite app_nil_r, filter_other_ids_None; [by destruct (appState w)|].
  intros t Ht Hid. apply Hfresh. apply list_elem_of_fmap. eauto.
Qed.

Lemma addTask_deleteTask_witness :
  ∃ w', addTask (VStr "cook") (VStr "cooking") (VNum (Int 3)) VNull sample_clock
          sample_world = Normal (true, w')
        ∧ (toString (Int (Date_now sample_clock))
           ∉ task_ids (appState sample_world))
        ∧ appState (deleteTask (toString (Int (Date_now sample_clock))) w')
          = appState sample_world.
Proof.
  eexists.
  assert (H1 : addTask (VStr "cook") (VStr "cooking") (VNum (Int 3)) VNull
                 sample_clock sample_world = Normal (true, _)) by reflexivity.
  assert (H2 : toString (Int (Date_now sample_clock))
               ∉ task_ids (appState sample_world)).
  { intros H. vm_compute in H.
    repeat (apply elem_of_cons in H as [H|H]; [discriminate H|]).
    by apply elem_of_nil in H. }
  split; [exact H1|]. split; [exact H2|].
  exact (addTask_deleteTask _ _ _ _ _ _ _ H1 H2).
Defined.

(** X12. [addTask] tests the name before it trims it: a name of white
    space only passes the test, and the task is stored with the empty
    name. *)
Theorem addTask_blank_name (s : string) (category energy priority : value)
    (clock : Clock) (w : World) :
  s ≠ ""%string → trim s = ""%string →
  truthy category = true → truthy energy = true →
  ∃ w' task,
    addTask (VStr s) category energy priority clock w = Normal (true, w')
    ∧ tasks (appState w') = tasks (appState w) ++ [task]
    ∧ Task.name task = ""%string.
Proof.
  intros Hs Ht Hc He. unfold addTask. rewrite Hc, He. simpl.
  destruct (String.eqb_spec s "") as [|_]; [done|]. simpl.
  eexists _, _. split; [reflexivity|]. simpl. by rewrite Ht.
Qed.

Lemma addTask_blank_name_witness :
  "   "%string ≠ ""%string ∧ trim "   " = ""%string
  ∧ truthy (VStr "gym") = true ∧ truthy (VNum (Int 4)) = true
  ∧ ∃ w' task,
      addTask (VStr "   ") (VStr "gym") (VNum (Int 4)) VNull sample_clock empty_world
      = Normal (true, w')
      ∧ tasks (appState w') = tasks (appState empty_world) ++ [task]
      ∧ Task.name task = ""%string.
Proof.
  assert (H1 : "   "%string ≠ ""%string) by discriminate.
  assert (H2 : trim "   " = ""%string) by reflexivity.
  assert (H3 : truthy (VStr "gym") = true) by reflexivity.
  assert (H4 : truthy (VNum (Int 4)) = true) by reflexivity.
  repeat (split; [assumption|]).
  exact (addTask_blank_name "   " (VStr "gym") (VNum (Int 4)) VNull
           sample_clock empty_world H1 H2 H3 H4).
Defined.

Lemma spread_updates_twice task updates :
  spread_updates (spread_updates task updates) updates
  = spread_updates task updates.
Proof.
  unfold spread_updates. simpl.
  by destruct (Updates.id updates), (Updates.name updates),
    (Updates.category updates), (Updates.energy updates),
    (Updates.priority updates), (Updates.createdAt updates).
Qed.

(** The task put in the place of the first task with the id is the first
    task with the id afterwards, when it keeps the id. *)
Lemma find_id_insert id (ts : list Task.t) i task task' :
  list_find (λ t, Task.id t = id) ts = Some (i, task) →
  Task.id task' = id →
  list_find (λ t, Task.id t = id) (<[i := task']> ts) = Some (i, task').
Proof.
  intros Hf Hid.
  pose proof (proj1 (list_find_Some _ _ _ _) Hf) as (Hi & _ & Hfirst).
  apply list_find_Some. split; [|split; [done|]].
  - apply list_lookup_insert_eq. by eapply lookup_lt_Some.
  - intros j y Hj Hlt. rewrite list_lookup_insert_ne in Hj by lia. eauto.
Qed.

(** X13. An edit made twice is the edit made once, the updates leaving the
    id alone: the second call finds the task the first call stored, returns
    what the first returned and leaves the world of the first. *)
Theorem editTask_idempotent (id : string) (updates : Updates.t) (w : World) :
  Updates.id updates = None →
  editTask id updates (editTask id updates w).2 = editTask id updates w.
Proof.
  intros Hno_id. unfold editTask at 2 3.
  destruct (list_find _ (tasks (appState w))) as [[i task]|] eqn:Hf.
  - cbn [snd]. unfold editTask. cbn [appState saveToStorage with_appState
                                     with_tasks tasks].
    pose proof (proj1 (list_find_Some _ _ _ _) Hf) as (_ & Hid & _).
    rewrite (find_id_insert id _ i task (spread_updates task updates) Hf)
      by (unfold spread_updates; simpl; by rewrite Hno_id).
    f_equal. apply saveToStorage_eq; [|done]. simpl.
    by rewrite spread_updates_twice, list_insert_insert_eq.
  - cbn [snd]. unfold editTask. by rewrite Hf.
Qed.

Lemma editTask_idempotent_witness :
  Updates.id sample_updates = None
  ∧ editTask "18" sample_updates (editTask "18" sample_updates sample_world).2
    = editTask "18" sample_updates sample_world.
Proof.
  assert (H : Updates.id sample_updates = None) by reflexivity.
  split; [exact H|].
  exact (editTask_idempotent "18" sample_updates sample_world H).
Defined.

(** X14. The edit form as a round trip: when [handleEdit] has filled the
    form for a task and the form is submitted as it stands (each field
    holding the text of the value put in it), [handleEditSubmit] succeeds
    and the state is the one before. The task must have a trimmed name, a
    category that is a string and numbers that are safe integers or [NaN];
    a priority of 0 or [NaN], shown as an empty field, would come back as
    [null]. *)
Theorem handleEdit_submit_roundtrip (id : string) (w : World)
    (form : EditForm.t) :
  handleEdit id w = Some form →
  (∀ t, t ∈ tasks (appState w) → Task.id t = id →
        trim (Task.name t) = Task.name t
        ∧ is_string (Task.category t) = true
        ∧ (Task.priority t = None ∨ nullable_truthy (Task.priority t) = true)
        ∧ safe_num (Task.energy t)
        ∧ from_option safe_num True (Task.priority t)) →
  handleEditSubmit (ToString (EditForm.id form)) (ToString (EditForm.name form))
    (ToString (EditForm.category form)) (ToString (EditForm.energy form))
    (ToString (EditForm.priority form)) w
  = (true, saveToStorage w).
Proof.
  unfold handleEdit, handleEditSubmit.
  destruct (list_find _ _) as [[i task]|] eqn:Hf; [|discriminate].
  intros [= <-] Hok. simpl.
  pose proof (proj1 (list_find_Some _ _ _ _) Hf) as (Hi & Hid & _).
  destruct (Hok task) as (Hname & Hcat & Hprio & _ & _);
    [by eapply list_elem_of_lookup_2|done|].
  unfold editTask. rewrite Hid, Hf. f_equal.
  apply saveToStorage_eq; [|done]. simpl.
  assert (Hsame : spread_updates task
            (form_updates (Task.name task) (ToString (Task.category task))
               (toString (Task.energy task))
               (ToString (priority_or_empty (Task.priority task))))
          = task).
  { destruct task as [tid tname tcat tenergy tprio tdate]. simpl in *.
    unfold spread_updates, form_updates. simpl. rewrite Hname. f_equal.
    - by destruct tcat.
    - apply parseInt_toString.
    - unfold priority_or_empty. destruct Hprio as [->|Hp]; [done|].
      rewrite Hp. destruct tprio as [p|]; [|done]. simpl.
      pose proof (truthy_toString p) as Ht. simpl in Ht. rewrite Ht.
      by rewrite parseInt_toString. }
  rewrite Hsame, list_insert_id by done. by destruct (appState w).
Qed.

Lemma handleEdit_submit_roundtrip_witness :
  ∃ form,
    handleEdit "17" sample_world = Some form
    ∧ handleEditSubmit (ToString (EditForm.id form)) (ToString (EditForm.name form))
        (ToString (EditForm.category form)) (ToString (EditForm.energy form))
        (ToString (EditForm.priority form)) sample_world
      = (true, saveToStorage sample_world).
Proof.
  eexists.
  assert (H1 : handleEdit "17" sample_world = Some _) by reflexivity.
  split; [exact H1|].
  apply (handleEdit_submit_roundtrip "17" sample_world _ H1).
  intros t Ht Hid. simpl in Ht.
  repeat (apply elem_of_cons in Ht as [->|Ht];
          [repeat split; try reflexivity; try (by left); try (by right);
           try (unfold safe_integer; lia)|]).
  by apply elem_of_nil in Ht.
Defined.

(* ================================================================== *)
(** ** Further properties of the ordering algorithm *)
(* ================================================================== *)


(** A list the comparison function finds in order is left as it is. *)
Lemma sort_sorted {A} (comparefn : A → A → num) l :
  StronglySorted (sorts_before comparefn) l → sort comparefn l = l.
Proof.
  induction 1 as [|x l Hs IH Hx]; [done|]. simpl. rewrite IH.
  destruct l as [|y l]; [done|].
  destruct (sort_insert_cases comparefn x y l) as [[_ ->]|[Hn _]]; [done|].
  destruct Hn. by apply Forall_cons in Hx as [? _].
Qed.

Lemma sort_not_nil {A} (comparefn : A → A → num) l :
  l ≠ [] → sort comparefn l ≠ [].
Proof.
  intros Hl Hs. pose proof (sort_Permutation comparefn l) as Hp.
  rewrite Hs in Hp. by apply Permutation_nil_l in Hp.
Qed.

(** X15. [orderTasks] returns the empty array exactly when the current
    energy is falsy ([null], 0 or [NaN]) or there is no task. *)
Theorem orderTasks_empty_iff (currentEnergy : option num) (w : World) :
  (orderTasks currentEnergy w).1 = []
  ↔ nullable_truthy currentEnergy = false ∨ tasks (appState w) = [].
Proof.
  split.
  - intros H. destruct (nullable_truthy currentEnergy) eqn:Ht; [|by left].
    right. rewrite orderTasks_unfold in H by done. simpl in H.
    destruct (tasks (appState w)) as [|t ts]; [done|].
    by apply sort_not_nil in H.
  - unfold orderTasks. intros [-> | ->]; [done|]. by rewrite orb_true_r.
Qed.



(** The array returned for scorable tasks: each element is a task with its
    score, and the array is in ascending order of the keys. *)
Lemma orderTasks_scorable currentEnergy w :
  Forall scorable (tasks (appState w)) →
  let ordered := (orderTasks (Some (Int currentEnergy)) w).1 in
  (∀ a, a ∈ ordered →
        ∃ t, a = with_score (Some (Int currentEnergy)) t ∧ scorable t)
  ∧ StronglySorted (sorts_before compare_scores) ordered.
Proof.
  intros Hts ordered. subst ordered. unfold orderTasks.
  destruct (_ || _); simpl; [split; [by intros a ?%elem_of_nil|constructor]|].
  assert (Hsc : Forall scored
            (map (with_score (Some (Int currentEnergy))) (tasks (appState w)))).
  { apply Forall_fmap. eapply Forall_impl; [exact Hts|].
    intros t. apply with_score_scored. }
  split.
  - intros a Ha. rewrite sort_Permutation in Ha.
    apply list_elem_of_fmap in Ha as (t & -> & Ht).
    rewrite Forall_forall in Hts. eauto.
  - apply (sort_StronglySorted compare_scores scored); [| |done].
    + intros x y Hx Hy. rewrite !compare_scores_key_le by done.
      apply key_le_total.
    + intros x y z Hx Hy Hz. rewrite !compare_scores_key_le by done.
      apply key_le_trans.
Qed.



(** X17. The order is a fixed point: were the tasks kept in the order
    [orderTasks] returns them, [orderTasks] would return the same array. *)
Theorem orderTasks_fixed_point (currentEnergy : Z) (w : World) :
  Forall scorable (tasks (appState w)) →
  let ordered := (orderTasks (Some (Int currentEnergy)) w).1 in
  (orderTasks (Some (Int currentEnergy))
     (with_appState w
        (with_tasks (appState w) (map TaskWithScore.task ordered)))).1
  = ordered.
Proof.
  intros Hts ordered.
  destruct (orderTasks_scorable currentEnergy w Hts) as [Hin Hs].
  fold ordered in Hin, Hs.
  assert (Hmap : map (with_score (Some (Int currentEnergy)))
                   (map TaskWithScore.task ordered) = ordered).
  { clear Hs. induction ordered as [|a l IH]; [done|]. simpl.
    destruct (Hin a) as (t & -> & _); [by left|].
    rewrite with_score_task. f_equal. apply IH. intros b Hb. apply Hin. by right. }
  unfold orderTasks at 1. cbn [appState with_appState with_tasks tasks].
  destruct (_ || _) eqn:Hguard.
  - simpl. apply orb_true_iff in Hguard as [Hg|Hg].
    + subst ordered. unfold orderTasks. by rewrite Hg.
    + apply Nat.eqb_eq in Hg. rewrite length_map in Hg.
      symmetry. by apply nil_length_inv.
  - simpl. rewrite Hmap. by apply sort_sorted.
Qed.

Lemma orderTasks_fixed_point_witness :
  Forall scorable (tasks (appState sample_world))
  ∧ (orderTasks (Some (Int 3))
       (with_appState sample_world
          (with_tasks (appState sample_world)
             (map TaskWithScore.task (orderTasks (Some (Int 3)) sample_world).1)))).1
    = (orderTasks (Some (Int 3)) sample_world).1.
Proof.
  assert (H0 : Forall scorable (tasks (appState sample_world))).
  { simpl. repeat (apply Forall_cons_2; [by vm_compute|]). apply Forall_nil_2. }
  split; [exact H0|].
  exact (orderTasks_fixed_point 3 sample_world H0).
Defined.

(** X18. Choosing an energy and ordering the tasks by it, as the task list
    is redrawn: [handleEnergySelect] stores the number [parseInt] reads
    (for a button whose value is the text of a safe integer, that integer) and
    leaves tasks and history alone; the order then lists every task when
    the number is an integer other than 0, and no task when it is 0 or
    [NaN]. *)
Theorem handleEnergySelect_orderTasks (energy : value) (w : World) :
  let w' := handleEnergySelect energy w in
  let ordered := (orderTasks (currentEnergy (appState w')) w').1 in
  currentEnergy (appState w') = Some (parseInt energy)
  ∧ (∀ z, safe_integer z → energy = VStr (toString (Int z)) →
          currentEnergy (appState w') = Some (Int z))
  ∧ tasks (appState w') = tasks (appState w)
  ∧ history (appState w') = history (appState w)
  ∧ match parseInt energy with
    | Int z =>
        if z =? 0 then ordered = []
        else map TaskWithScore.task ordered ≡ₚ tasks (appState w)
    | NaN => ordered = []
    end.
Proof.
  intros w' ordered. subst w' ordered. unfold handleEnergySelect. simpl.
  split; [done|]. split; [by intros z _ ->; rewrite parseInt_toString|].
  split; [done|]. split; [done|].
  destruct (parseInt energy) as [z|] eqn:Hp; [|done].
  destruct (Z.eqb_spec z 0) as [->|Hz]; [done|].
  rewrite orderTasks_unfold by (simpl; by destruct (Z.eqb_spec z 0)).
  simpl. by rewrite sort_Permutation, map_task_with_score.
Qed.

Lemma handleEnergySelect_orderTasks_witness :
  safe_integer 3
  ∧ VStr "3" = VStr (toString (Int 3))
  ∧ currentEnergy (appState (handleEnergySelect (VStr "3") sample_world))
    = Some (Int 3).
Proof.
  assert (H : VStr "3" = VStr (toString (Int 3))) by reflexivity.
  assert (H3 : safe_integer 3) by (unfold safe_integer; lia).
  split; [exact H3|]. split; [exact H|].
  exact (proj1 (proj2 (handleEnergySelect_orderTasks (VStr "3") sample_world))
           3 H3 H).
Defined.

(* ================================================================== *)
(** ** Properties of the labels *)
(* ================================================================== *)






(** X20. [getCategoryEmoji] gives a category that is none of the five its
    table has the label of [other], unless the text of the category is a
    name every object inherits ([toString], [constructor], ...): then it
    returns the inherited value, which is no label. *)
Theorem getCategoryEmoji_fallback (category : value) :
  (ToString category ∉ ["cooking"; "cleaning"; "gym"; "paperwork"]%string →
   ToString category ∉ Object_prototype_names →
   getCategoryEmoji category = getCategoryEmoji (VStr "other")
   ∧ getCategoryEmoji category = Label pin)
  ∧ (ToString category ∈ Object_prototype_names →
     getCategoryEmoji category = Inherited (ToString category)).
Proof.
  assert (Ho : getCategoryEmoji (VStr "other") = Label pin) by reflexivity.
  rewrite Ho. clear Ho.
  unfold getCategoryEmoji. generalize (ToString category). intros key.
  unfold category_emojis. cbn [find fst snd]. split.
  - intros Hk Hp. rewrite (bool_decide_eq_false_2 _ Hp).
    destruct (String.eqb_spec "cooking" key) as [<-|_];
      [exfalso; apply Hk; rewrite !elem_of_cons; naive_solver|].
    destruct (String.eqb_spec "cleaning" key) as [<-|_];
      [exfalso; apply Hk; rewrite !elem_of_cons; naive_solver|].
    destruct (String.eqb_spec "gym" key) as [<-|_];
      [exfalso; apply Hk; rewrite !elem_of_cons; naive_solver|].
    destruct (String.eqb_spec "paperwork" key) as [<-|_];
      [exfalso; apply Hk; rewrite !elem_of_cons; naive_solver|].
    by destruct (String.eqb_spec "other" key).
  - intros Hp. rewrite (bool_decide_eq_true_2 _ Hp).
    destruct (String.eqb_spec "cooking" key) as [<-|_];
      [destruct (bool_decide_unpack ("cooking"%string ∉ Object_prototype_names));
       [by vm_compute|exact Hp]|].
    destruct (String.eqb_spec "cleaning" key) as [<-|_];
      [destruct (bool_decide_unpack ("cleaning"%string ∉ Object_prototype_names));
       [by vm_compute|exact Hp]|].
    destruct (String.eqb_spec "gym" key) as [<-|_];
      [destruct (bool_decide_unpack ("gym"%string ∉ Object_prototype_names));
       [by vm_compute|exact Hp]|].
    destruct (String.eqb_spec "paperwork" key) as [<-|_];
      [destruct (bool_decide_unpack ("paperwork"%string ∉ Object_prototype_names));
       [by vm_compute|exact Hp]|].
    destruct (String.eqb_spec "other" key) as [<-|_];
      [destruct (bool_decide_unpack ("other"%string ∉ Object_prototype_names));
       [by vm_compute|exact Hp]|].
    done.
Qed.

Lemma getCategoryEmoji_fallback_witness :
  (ToString (VStr "shopping") ∉ ["cooking"; "cleaning"; "gym"; "paperwork"]%string)
  ∧ (ToString (VStr "shopping") ∉ Object_prototype_names)
  ∧ getCategoryEmoji (VStr "shopping") = Label pin.
Proof.
  assert (H1 : ToString (VStr "shopping")
               ∉ ["cooking"; "cleaning"; "gym"; "paperwork"]%string).
  { intros H. repeat (apply elem_of_cons in H as [H|H]; [discriminate H|]).
    by apply elem_of_nil in H. }
  assert (H2 : ToString (VStr "shopping") ∉ Object_prototype_names).
  { intros H. unfold Object_prototype_names in H.
    repeat (apply elem_of_cons in H as [H|H]; [discriminate H|]).
    by apply elem_of_nil in H. }
  split; [exact H1|]. split; [exact H2|].
  exact (proj2 (proj1 (getCategoryEmoji_fallback (VStr "shopping")) H1 H2)).
Defined.

(* ================================================================== *)
(** ** What the operations leave alone *)
(* ================================================================== *)

(** X21. No operation of the engine removes or alters an entry of the
    history or touches the current energy and the rating, the two setters
    apart: [addTask], [editTask] and [deleteTask] leave the history as it
    is, [completeTask] leaves it as it is or puts one entry in front, and
    the setters change the one value they set. *)
Theorem history_only_grows (w : World) :
  (∀ name category energy priority clock b w',
     addTask name category energy priority clock w = Normal (b, w') →
     history (appState w') = history (appState w)
     ∧ currentEnergy (appState w') = currentEnergy (appState w)
     ∧ dailyRating (appState w') = dailyRating (appState w))
  ∧ (∀ id updates,
       history (appState (editTask id updates w).2) = history (appState w)
       ∧ currentEnergy (appState (editTask id updates w).2)
         = currentEnergy (appState w)
       ∧ dailyRating (appState (editTask id updates w).2)
         = dailyRating (appState w))
  ∧ (∀ id,
       history (appState (deleteTask id w)) = history (appState w)
       ∧ currentEnergy (appState (deleteTask id w)) = currentEnergy (appState w)
       ∧ dailyRating (appState (deleteTask id w)) = dailyRating (appState w))
  ∧ (∀ id clock,
       (history (appState (completeTask id clock w)) = history (appState w)
        ∨ ∃ entry, history (appState (completeTask id clock w))
                   = entry :: history (appState w))
       ∧ currentEnergy (appState (completeTask id clock w))
         = currentEnergy (appState w)
       ∧ dailyRating (appState (completeTask id clock w))
         = dailyRating (appState w))
  ∧ (∀ energy,
       history (appState (handleEnergySelect energy w)) = history (appState w)
       ∧ tasks (appState (handleEnergySelect energy w)) = tasks (appState w)
       ∧ dailyRating (appState (handleEnergySelect energy w))
         = dailyRating (appState w))
  ∧ (∀ rating,
       history (appState (handleRating rating w)) = history (appState w)
       ∧ tasks (appState (handleRating rating w)) = tasks (appState w)
       ∧ currentEnergy (appState (handleRating rating w))
         = currentEnergy (appState w)).
Proof.
  split; [|split; [|split; [|split; [|split]]]].
  - intros name category energy priority clock b w'. unfold addTask.
    destruct (_ || _); [by intros [= <- <-]|].
    destruct name; try discriminate. by intros [= <- <-].
  - intros id updates. unfold editTask.
    by destruct (list_find _ _) as [[i task]|].
  - done.
  - intros id clock. unfold completeTask.
    destruct (list_find _ _) as [[i task]|]; simpl; [|by split; [left|]].
    split; [right; eauto|done].
  - done.
  - done.
Qed.

Lemma history_only_grows_witness :
  addTask (VStr "cook") (VStr "cooking") (VNum (Int 3)) VNull sample_clock
    sample_world
  = Normal (true,
      saveToStorage
        (with_appState sample_world
           (with_tasks sample_state
              (tasks sample_state
               ++ [ {| Task.id := toString (Int (Date_now sample_clock));
                       Task.name := "cook"; Task.category := VStr "cooking";
                       Task.energy := Int 3; Task.priority := None;
                       Task.createdAt := Date_toISOString sample_clock |} ]))))
  ∧ history
      (appState
         (saveToStorage
            (with_appState sample_world
               (with_tasks sample_state
                  (tasks sample_state
                   ++ [ {| Task.id := toString (Int (Date_now sample_clock));
                           Task.name := "cook"; Task.category := VStr "cooking";
                           Task.energy := Int 3; Task.priority := None;
                           Task.createdAt := Date_toISOString sample_clock |} ])))))
    = history (appState sample_world).
Proof.
  assert (H : addTask (VStr "cook") (VStr "cooking") (VNum (Int 3)) VNull
                sample_clock sample_world = Normal (true, _)) by reflexivity.
  split; [exact H|].
  exact (proj1 (proj1 (history_only_grows sample_world) _ _ _ _ _ _ _ H)).
Defined.

(** X22. Two tasks added one after the other have the same id exactly when
    [Date.now()] gave the same reading at both calls: the id is the decimal
    text of the reading, and different readings have different texts. *)
Theorem addTask_twice_ids (name1 category1 energy1 priority1 : value)
    (name2 category2 energy2 priority2 : value) (clock1 clock2 : Clock)
    (w w1 w2 : World) :
  addTask name1 category1 energy1 priority1 clock1 w = Normal (true, w1) →
  addTask name2 category2 energy2 priority2 clock2 w1 = Normal (true, w2) →
  ∃ t1 t2,
    tasks (appState w2) = tasks (appState w) ++ [t1; t2]
    ∧ (Task.id t1 = Task.id t2 ↔ Date_now clock1 = Date_now clock2).
Proof.
  unfold addTask.
  destruct (_ || _); [discriminate|]. destruct name1; try discriminate.
  intros [= <-].
  destruct (_ || _); [discriminate|]. destruct name2; try discriminate.
  intros [= <-]. eexists _, _. simpl. rewrite <- app_assoc. split; [done|].
  simpl. split; [apply toString_Int_inj|by intros ->].
Qed.

Lemma addTask_twice_ids_witness :
  ∃ w1 w2 t1 t2,
    addTask (VStr "cook") (VStr "cooking") (VNum (Int 3)) VNull sample_clock
      empty_world = Normal (true, w1)
    ∧ addTask (VStr "iron") (VStr "cleaning") (VNum (Int 2)) VNull
        (mkClock (Date_now sample_clock + 1) (Date_toISOString sample_clock))
        w1 = Normal (true, w2)
    ∧ tasks (appState w2) = tasks (appState empty_world) ++ [t1; t2]
    ∧ (Task.id t1 = Task.id t2
       ↔ Date_now sample_clock = Date_now sample_clock + 1).
Proof.
  eexists _, _.
  edestruct (addTask_twice_ids (VStr "cook") (VStr "cooking") (VNum (Int 3))
               VNull (VStr "iron") (VStr "cleaning") (VNum (Int 2)) VNull
               sample_clock
               (mkClock (Date_now sample_clock + 1)
                  (Date_toISOString sample_clock))
               empty_world)
    as (t1 & t2 & Ht & Hid); [reflexivity|reflexivity|].
  exists t1, t2. split; [reflexivity|]. split; [reflexivity|].
  split; [exact Ht|exact Hid].
Defined.
